(** * Dedalus core: layouts, operator construction, symbolic splitting, pencils

    A shallow embedding of the parts of
    [dedalus2/core/field.py], [dedalus/core/operators.py] and
    [dedalus2/data/pencil.py] that the specification's testable properties
    talk about, with the properties stated and proved (or refuted) on it.

    Numeric entries (coefficients, matrix entries, scalar values) are taken
    in [Z]: every statement below is about which entries are copied, cleared
    or compared, never about rounding. *)

From Stdlib Require Import ZArith Lia Bool.
From stdpp Require Import base list strings gmap.

Local Open Scope Z_scope.

(* ===================================================================== *)
(** * 1. Field layout walk ([dedalus2/core/field.py]) *)
(* ===================================================================== *)

Module FieldLayout.

(** A transform path joins the layouts [layout0] and [layout1]. *)
Record path := { layout0 : Z; layout1 : Z }.

(** One recorded transform step: the path used and its direction. *)
Inductive step :=
| Increment (p : Z)
| Decrement (p : Z).

(** The part of a [Field] that the layout walk touches: the index of its
    current layout and the transform steps applied to it so far. *)
Record field := { layout_index : Z; steps : list step }.

(** Outcome of a Python call: it returns, raises, or (for the fuelled
    model of a [while] loop) has not finished within the fuel. *)
Inductive outcome (A : Type) :=
| Done (a : A)
| Raised
| OutOfFuel.
Arguments Done {A} a.
Arguments Raised {A}.
Arguments OutOfFuel {A}.

(** Python list indexing [l[i]]: negative indices count from the end,
    anything else out of range raises [IndexError]. *)
Definition py_getitem {A} (l : list A) (i : Z) : option A :=
  let n := Z.of_nat (length l) in
  if (0 <=? i) && (i <? n) then l !! Z.to_nat i
  else if (- n <=? i) && (i <? 0) then l !! Z.to_nat (n + i)
  else None.

(** Modelled from the spec: the distributor's chain of transform paths
    ([domain.dist.paths], not in the sources read here).  Path [k] joins
    layout [k] and layout [k+1]; [increment] leaves the field in
    [layout1], [decrement] in [layout0]. *)
Definition chain (n_paths : nat) : list path :=
  map (fun k => {| layout0 := Z.of_nat k; layout1 := Z.of_nat k + 1 |})
      (seq 0 n_paths).

Definition increment (k : Z) (p : path) (f : field) : field :=
  {| layout_index := layout1 p; steps := steps f ++ [Increment k] |}.

Definition decrement (k : Z) (p : path) (f : field) : field :=
  {| layout_index := layout0 p; steps := steps f ++ [Decrement k] |}.

Section Walk.

Variable paths : list path.

(** [Field.towards_grid_space] *)
Definition towards_grid_space (f : field) : outcome field :=
  let index := layout_index f in
  match py_getitem paths index with
  | Some p => Done (increment index p f)
  | None => Raised
  end.

(** [Field.towards_coeff_space] *)
Definition towards_coeff_space (f : field) : outcome field :=
  let index := layout_index f in
  match py_getitem paths (index - 1) with
  | Some p => Done (decrement (index - 1) p f)
  | None => Raised
  end.

(** [while self.layout.index < layout.index: self.towards_grid_space()] *)
Fixpoint while_below (fuel : nat) (target : Z) (f : field) : outcome field :=
  if layout_index f <? target then
    match fuel with
    | O => OutOfFuel
    | S fuel' =>
        match towards_grid_space f with
        | Done f' => while_below fuel' target f'
        | Raised => Raised
        | OutOfFuel => OutOfFuel
        end
    end
  else Done f.

(** [while self.layout.index > layout.index: self.towards_coeff_space()] *)
Fixpoint while_above (fuel : nat) (target : Z) (f : field) : outcome field :=
  if layout_index f >? target then
    match fuel with
    | O => OutOfFuel
    | S fuel' =>
        match towards_coeff_space f with
        | Done f' => while_above fuel' target f'
        | Raised => Raised
        | OutOfFuel => OutOfFuel
        end
    end
  else Done f.

(** [Field.require_layout], for a layout object of index [target]. *)
Definition require_layout (fuel : nat) (target : Z) (f : field) : outcome field :=
  if layout_index f <? target then while_below fuel target f
  else if layout_index f >? target then while_above fuel target f
  else Done f.

End Walk.

(** The steps of a walk from layout [from] over [n] paths upwards. *)
Definition up_steps (from : Z) (n : nat) : list step :=
  map (fun k => Increment (from + Z.of_nat k)) (seq 0 n).

(** The steps of a walk from layout [from] over [n] paths downwards. *)
Definition down_steps (from : Z) (n : nat) : list step :=
  map (fun k => Decrement (from - 1 - Z.of_nat k)) (seq 0 n).

(** The layout a field is in after a recorded step. *)
Definition step_target (s : step) : Z :=
  match s with
  | Increment k => k + 1
  | Decrement k => k
  end.

(** The layouts a field passes through along a list of steps. *)
Definition visited (l : list step) : list Z := map step_target l.

(** ** Properties of the walk *)

Lemma py_getitem_chain (n : nat) (i : Z) :
  0 <= i < Z.of_nat n ->
  py_getitem (chain n) i = Some {| layout0 := i; layout1 := i + 1 |}.
Proof.
  intros Hi. unfold py_getitem, chain.
  rewrite length_map, length_seq.
  replace ((0 <=? i) && (i <? Z.of_nat n)) with true
    by (symmetry; apply andb_true_iff; split; [apply Z.leb_le | apply Z.ltb_lt]; lia).
  rewrite list_lookup_fmap, lookup_seq_lt by lia.
  simpl. rewrite Z2Nat.id by lia. reflexivity.
Qed.

Lemma up_steps_S (from : Z) (d : nat) :
  up_steps from (S d) = Increment from :: up_steps (from + 1) d.
Proof.
  unfold up_steps. simpl. rewrite Z.add_0_r. f_equal.
  rewrite <- seq_shift, map_map. apply map_ext. intros j. f_equal. lia.
Qed.

Lemma down_steps_S (from : Z) (d : nat) :
  down_steps from (S d) = Decrement (from - 1) :: down_steps (from - 1) d.
Proof.
  unfold down_steps. simpl. rewrite Z.sub_0_r. f_equal.
  rewrite <- seq_shift, map_map. apply map_ext. intros j. f_equal. lia.
Qed.

Lemma while_below_walk (n : nat) (target : Z) (d : nat) :
  forall (fuel : nat) (f : field),
    0 <= layout_index f -> target <= Z.of_nat n ->
    target - layout_index f = Z.of_nat d -> (d <= fuel)%nat ->
    while_below (chain n) fuel target f
    = Done {| layout_index := target;
              steps := steps f ++ up_steps (layout_index f) d |}.
Proof.
  induction d as [|d IH]; intros fuel f H0 Hn Hd Hfuel.
  - destruct f as [i st]; simpl in *.
    assert (i = target) as -> by lia.
    destruct fuel; simpl; rewrite Z.ltb_irrefl, app_nil_r; reflexivity.
  - destruct fuel as [|fuel]; [lia|].
    simpl. replace (layout_index f <? target) with true
      by (symmetry; apply Z.ltb_lt; lia).
    unfold towards_grid_space. rewrite py_getitem_chain by lia.
    rewrite IH; simpl; try lia.
    rewrite up_steps_S, <- app_assoc. reflexivity.
Qed.

Lemma while_above_walk (n : nat) (target : Z) (d : nat) :
  forall (fuel : nat) (f : field),
    0 <= target -> layout_index f <= Z.of_nat n ->
    layout_index f - target = Z.of_nat d -> (d <= fuel)%nat ->
    while_above (chain n) fuel target f
    = Done {| layout_index := target;
              steps := steps f ++ down_steps (layout_index f) d |}.
Proof.
  induction d as [|d IH]; intros fuel f H0 Hn Hd Hfuel.
  - destruct f as [i st]; simpl in *.
    assert (i = target) as -> by lia.
    destruct fuel; simpl; rewrite Z.gtb_ltb, Z.ltb_irrefl, app_nil_r; reflexivity.
  - destruct fuel as [|fuel]; [lia|].
    simpl. replace (layout_index f >? target) with true
      by (symmetry; rewrite Z.gtb_ltb; apply Z.ltb_lt; lia).
    unfold towards_coeff_space. rewrite py_getitem_chain by lia.
    rewrite IH; simpl; try lia.
    rewrite down_steps_S, <- app_assoc. reflexivity.
Qed.

Lemma visited_up (from : Z) (d : nat) :
  visited (up_steps from d) = map (fun k => from + 1 + Z.of_nat k) (seq 0 d).
Proof.
  unfold visited, up_steps. rewrite map_map. apply map_ext. intros k. simpl. lia.
Qed.

Lemma visited_down (from : Z) (d : nat) :
  visited (down_steps from d) = map (fun k => from - 1 - Z.of_nat k) (seq 0 d).
Proof.
  unfold visited, down_steps. rewrite map_map. reflexivity.
Qed.

(** The walk [require_layout] performs from layout [cur] to layout
    [target]: the transform steps, in order. *)
Definition walk (cur target : Z) : list step :=
  if cur <? target then up_steps cur (Z.to_nat (target - cur))
  else down_steps cur (Z.to_nat (cur - target)).

(** C8. For a field in a registered layout and a registered target layout
    of index [L] (both between 0 and the number of paths), [require_layout]
    returns with the field at index [L]; the layouts it passes through are
    [cur+1, cur+2, ..., L] when it starts below [L] and
    [cur-1, cur-2, ..., L] when it starts above, one transform step per
    layout; and when the field is already at [L] no step is taken and the
    field is returned unchanged, whatever the fuel. *)
Theorem require_layout_monotone_walk (n fuel : nat) (L : Z) (f : field) :
  0 <= layout_index f <= Z.of_nat n ->
  0 <= L <= Z.of_nat n ->
  (Z.abs_nat (L - layout_index f) <= fuel)%nat ->
  let cur := layout_index f in
  require_layout (chain n) fuel L f
  = Done {| layout_index := L; steps := steps f ++ walk cur L |}
  /\ length (walk cur L) = Z.abs_nat (L - cur)
  /\ (forall k : nat, (k < Z.abs_nat (L - cur))%nat ->
        visited (walk cur L) !! k
        = Some (if cur <? L then cur + (Z.of_nat k + 1)
                else cur - (Z.of_nat k + 1)))
  /\ (cur = L -> require_layout (chain n) 0 L f = Done f /\ walk cur L = []).
Proof.
  intros Hf HL Hfuel cur. subst cur. unfold require_layout, walk.
  destruct (Z.ltb_spec (layout_index f) L) as [Hlt|Hge].
  - split; [|split; [|split]].
    + apply while_below_walk; lia.
    + unfold up_steps. rewrite length_map, length_seq. lia.
    + intros k Hk. rewrite visited_up, list_lookup_fmap, lookup_seq_lt by lia.
      simpl. f_equal. lia.
    + lia.
  - destruct (Z.gtb_spec (layout_index f) L) as [Hgt|Hle].
    + split; [|split; [|split]].
      * rewrite <- (while_above_walk n L (Z.to_nat (layout_index f - L)) fuel f) by lia.
        reflexivity.
      * unfold down_steps. rewrite length_map, length_seq. lia.
      * intros k Hk. rewrite visited_down, list_lookup_fmap, lookup_seq_lt by lia.
        simpl. f_equal. lia.
      * lia.
    + assert (layout_index f = L) as Heq by lia.
      rewrite Heq, Z.sub_diag. simpl.
      split; [|split; [|split]].
      * destruct f as [i st]; simpl in *. subst i. rewrite app_nil_r. reflexivity.
      * reflexivity.
      * intros k Hk. lia.
      * intros _. split; reflexivity.
Qed.

Lemma require_layout_monotone_walk_witness :
  require_layout (chain 3) 2 3 {| layout_index := 1; steps := [] |}
  = Done {| layout_index := 3; steps := [Increment 1; Increment 2] |}
  /\ require_layout (chain 3) 3 0 {| layout_index := 3; steps := [] |}
     = Done {| layout_index := 0; steps := [Decrement 2; Decrement 1; Decrement 0] |}.
Proof.
  split.
  - apply (require_layout_monotone_walk 3 2 3 {| layout_index := 1; steps := [] |});
      simpl; lia.
  - apply (require_layout_monotone_walk 3 3 0 {| layout_index := 3; steps := [] |});
      simpl; lia.
Defined.

(** ** Walking until an axis is in the required space *)

Section Spaces.

(** [layout.grid_space] of the layout of each index (the layout objects
    belong to the distributor, which is not among the sources). *)
Variable grid_space : Z -> list bool.
Variable paths : list path.

(** The loop test of [require_coeff_space]: [any(grid_space)] without an
    axis, [grid_space[axis]] with one ([None] when the index is out of
    range, where Python raises). *)
Definition some_grid (axis : option nat) (index : Z) : option bool :=
  match axis with
  | None => Some (existsb (fun g => g) (grid_space index))
  | Some a => grid_space index !! a
  end.

(** The test that ends the loop of [require_grid_space]:
    [all(grid_space)], or [grid_space[axis]]. *)
Definition all_grid (axis : option nat) (index : Z) : option bool :=
  match axis with
  | None => Some (forallb (fun g => g) (grid_space index))
  | Some a => grid_space index !! a
  end.

(** [Field.require_coeff_space(axis)] *)
Fixpoint require_coeff_space (fuel : nat) (axis : option nat) (f : field)
  : outcome field :=
  match some_grid axis (layout_index f) with
  | None => Raised
  | Some false => Done f
  | Some true =>
      match fuel with
      | O => OutOfFuel
      | S fuel' =>
          match towards_coeff_space paths f with
          | Done f' => require_coeff_space fuel' axis f'
          | Raised => Raised
          | OutOfFuel => OutOfFuel
          end
      end
  end.

(** [Field.require_grid_space(axis)] *)
Fixpoint require_grid_space (fuel : nat) (axis : option nat) (f : field)
  : outcome field :=
  match all_grid axis (layout_index f) with
  | None => Raised
  | Some true => Done f
  | Some false =>
      match fuel with
      | O => OutOfFuel
      | S fuel' =>
          match towards_grid_space paths f with
          | Done f' => require_grid_space fuel' axis f'
          | Raised => Raised
          | OutOfFuel => OutOfFuel
          end
      end
  end.

End Spaces.

Lemma require_coeff_space_done (grid_space : Z -> list bool) (paths : list path)
    (fuel : nat) (axis : option nat) (f : field) :
  some_grid grid_space axis (layout_index f) = Some false ->
  require_coeff_space grid_space paths fuel axis f = Done f.
Proof. intros H. destruct fuel; simpl; rewrite H; reflexivity. Qed.

Lemma require_coeff_space_step (grid_space : Z -> list bool) (paths : list path)
    (fuel : nat) (axis : option nat) (f : field) :
  some_grid grid_space axis (layout_index f) = Some true ->
  require_coeff_space grid_space paths (S fuel) axis f
  = match towards_coeff_space paths f with
    | Done f' => require_coeff_space grid_space paths fuel axis f'
    | Raised => Raised
    | OutOfFuel => OutOfFuel
    end.
Proof. intros H. simpl. rewrite H. reflexivity. Qed.

Lemma require_coeff_space_descends (grid_space : Z -> list bool) (n : nat)
    (axis : option nat) :
  some_grid grid_space axis 0 = Some false ->
  forall (c : nat) (fuel : nat) (f : field),
    layout_index f = Z.of_nat c -> (c <= n)%nat -> (c <= fuel)%nat ->
    (forall i, 0 <= i <= Z.of_nat c -> is_Some (some_grid grid_space axis i)) ->
    exists j : nat,
      (j <= c)%nat
      /\ some_grid grid_space axis (Z.of_nat j) = Some false
      /\ (forall i, Z.of_nat j < i <= Z.of_nat c ->
            some_grid grid_space axis i = Some true)
      /\ require_coeff_space grid_space (chain n) fuel axis f
         = Done {| layout_index := Z.of_nat j;
                   steps := steps f ++ down_steps (Z.of_nat c) (c - j) |}.
Proof.
  intros H0. induction c as [|c IH]; intros fuel f Hf Hn Hfuel Hdef.
  - exists 0%nat. split; [lia|]. split; [exact H0|]. split; [intros i Hi; lia|].
    rewrite require_coeff_space_done by (rewrite Hf; exact H0).
    destruct f as [i st]; simpl in Hf; subst i. simpl. rewrite app_nil_r. reflexivity.
  - destruct (Hdef (Z.of_nat (S c)) ltac:(lia)) as [g Hg].
    destruct g.
    + destruct fuel as [|fuel]; [lia|].
      rewrite require_coeff_space_step by (rewrite Hf; exact Hg).
      unfold towards_coeff_space.
      rewrite Hf, py_getitem_chain by lia.
      destruct (IH fuel (decrement (Z.of_nat (S c) - 1)
                           {| layout0 := Z.of_nat (S c) - 1;
                              layout1 := Z.of_nat (S c) - 1 + 1 |} f))
        as (j & Hj & Hjf & Hjt & Hres);
        [simpl; lia | lia | lia | intros i Hi; apply Hdef; lia |].
      exists j. split; [lia|]. split; [exact Hjf|]. split.
      * intros i Hi. destruct (decide (i = Z.of_nat (S c))) as [->|Hne];
          [exact Hg | apply Hjt; lia].
      * rewrite Hres. unfold decrement. cbn [steps layout0].
        replace (S c - j)%nat with (S (c - j)) by lia.
        rewrite down_steps_S, <- app_assoc.
        replace (Z.of_nat (S c) - 1) with (Z.of_nat c) by lia. reflexivity.
    + exists (S c). split; [lia|]. split; [exact Hg|]. split; [intros i Hi; lia|].
      rewrite require_coeff_space_done by (rewrite Hf; exact Hg).
      destruct f as [i st]; simpl in Hf; subst i.
      rewrite Nat.sub_diag. simpl. rewrite app_nil_r. reflexivity.
Qed.

(** X11. [require_coeff_space] (for one axis, or for all with no axis):
    from any registered layout, when the first layout of the chain has the
    axis in coefficient space, the call returns; the field ends in the
    nearest layout at or below its own where the axis is in coefficient
    space, having taken one backward step per layout in between and no
    forward step. *)
Theorem require_coeff_space_stops_at_first_coeff_layout
    (grid_space : Z -> list bool) (n fuel : nat) (axis : option nat) (f : field) :
  some_grid grid_space axis 0 = Some false ->
  0 <= layout_index f <= Z.of_nat n ->
  (Z.to_nat (layout_index f) <= fuel)%nat ->
  (forall i, 0 <= i <= layout_index f -> is_Some (some_grid grid_space axis i)) ->
  exists j : Z,
    0 <= j <= layout_index f
    /\ some_grid grid_space axis j = Some false
    /\ (forall i, j < i <= layout_index f -> some_grid grid_space axis i = Some true)
    /\ require_coeff_space grid_space (chain n) fuel axis f
       = Done {| layout_index := j;
                 steps := steps f
                          ++ down_steps (layout_index f) (Z.to_nat (layout_index f - j)) |}.
Proof.
  intros H0 Hf Hfuel Hdef.
  destruct (require_coeff_space_descends grid_space n axis H0
              (Z.to_nat (layout_index f)) fuel f)
    as (j & Hj & Hjf & Hjt & Hres); [lia | lia | lia | |].
  { intros i Hi. apply Hdef. lia. }
  exists (Z.of_nat j). split; [lia|]. split; [exact Hjf|]. split.
  - intros i Hi. apply Hjt. lia.
  - rewrite Hres. rewrite Z2Nat.id by lia. repeat f_equal. lia.
Qed.

Lemma require_coeff_space_stops_at_first_coeff_layout_witness :
  require_coeff_space
    (fun i => if i <=? 1 then [false; false] else if i <=? 2 then [false; true]
              else [true; true])
    (chain 3) 3 (Some 1%nat) {| layout_index := 3; steps := [] |}
  = Done {| layout_index := 1; steps := [Decrement 2; Decrement 1] |}.
Proof.
  destruct (require_coeff_space_stops_at_first_coeff_layout
              (fun i => if i <=? 1 then [false; false] else if i <=? 2 then [false; true]
                        else [true; true])
              3 3 (Some 1%nat) {| layout_index := 3; steps := [] |})
    as (j & Hj & Hjf & Hjt & Hres).
  - reflexivity.
  - simpl. lia.
  - simpl. lia.
  - simpl. intros i Hi. unfold some_grid.
    destruct (i <=? 1); [eexists; reflexivity|].
    destruct (i <=? 2); eexists; reflexivity.
  - reflexivity.
Defined.

Lemma require_grid_space_done (grid_space : Z -> list bool) (paths : list path)
    (fuel : nat) (axis : option nat) (f : field) :
  all_grid grid_space axis (layout_index f) = Some true ->
  require_grid_space grid_space paths fuel axis f = Done f.
Proof. intros H. destruct fuel; simpl; rewrite H; reflexivity. Qed.

Lemma require_grid_space_step (grid_space : Z -> list bool) (paths : list path)
    (fuel : nat) (axis : option nat) (f : field) :
  all_grid grid_space axis (layout_index f) = Some false ->
  require_grid_space grid_space paths (S fuel) axis f
  = match towards_grid_space paths f with
    | Done f' => require_grid_space grid_space paths fuel axis f'
    | Raised => Raised
    | OutOfFuel => OutOfFuel
    end.
Proof. intros H. simpl. rewrite H. reflexivity. Qed.

Lemma require_grid_space_ascends (grid_space : Z -> list bool) (n : nat)
    (axis : option nat) :
  all_grid grid_space axis (Z.of_nat n) = Some true ->
  forall (d : nat) (fuel : nat) (f : field),
    0 <= layout_index f -> layout_index f + Z.of_nat d = Z.of_nat n ->
    (d <= fuel)%nat ->
    (forall i, layout_index f <= i <= Z.of_nat n ->
       is_Some (all_grid grid_space axis i)) ->
    exists k : nat,
      (k <= d)%nat
      /\ all_grid grid_space axis (layout_index f + Z.of_nat k) = Some true
      /\ (forall i, layout_index f <= i < layout_index f + Z.of_nat k ->
            all_grid grid_space axis i = Some false)
      /\ require_grid_space grid_space (chain n) fuel axis f
         = Done {| layout_index := layout_index f + Z.of_nat k;
                   steps := steps f ++ up_steps (layout_index f) k |}.
Proof.
  intros Hn. induction d as [|d IH]; intros fuel f H0 Hd Hfuel Hdef.
  - exists 0%nat. rewrite Z.add_0_r in *. split; [lia|].
    split; [rewrite Hd; exact Hn|]. split; [intros i Hi; lia|].
    rewrite require_grid_space_done by (rewrite Hd; exact Hn).
    destruct f as [i st]. simpl. rewrite app_nil_r. reflexivity.
  - destruct (Hdef (layout_index f) ltac:(lia)) as [g Hg].
    destruct g.
    + exists 0%nat. rewrite Z.add_0_r. split; [lia|]. split; [exact Hg|].
      split; [intros i Hi; lia|].
      rewrite require_grid_space_done by exact Hg.
      destruct f as [i st]. simpl. rewrite app_nil_r. reflexivity.
    + destruct fuel as [|fuel]; [lia|].
      rewrite require_grid_space_step by exact Hg.
      unfold towards_grid_space. rewrite py_getitem_chain by lia.
      destruct (IH fuel (increment (layout_index f)
                           {| layout0 := layout_index f;
                              layout1 := layout_index f + 1 |} f))
        as (k & Hk & Hkt & Hkf & Hres);
        [simpl; lia | simpl; lia | lia | simpl; intros i Hi; apply Hdef; lia |].
      simpl in Hkt, Hkf, Hres.
      exists (S k). split; [lia|].
      split; [replace (layout_index f + Z.of_nat (S k))
                with (layout_index f + 1 + Z.of_nat k) by lia; exact Hkt|].
      split.
      * intros i Hi. destruct (decide (i = layout_index f)) as [->|Hne];
          [exact Hg | apply Hkf; lia].
      * rewrite Hres. rewrite up_steps_S, <- app_assoc.
        replace (layout_index f + Z.of_nat (S k))
          with (layout_index f + 1 + Z.of_nat k) by lia.
        reflexivity.
Qed.

(** X12. [require_grid_space] (for one axis, or for all with no axis):
    from any registered layout, when the last layout of the chain has the
    axis in grid space, the call returns; the field ends in the nearest
    layout at or above its own where the axis is in grid space, having
    taken one forward step per layout in between and no backward step. *)
Theorem require_grid_space_stops_at_first_grid_layout
    (grid_space : Z -> list bool) (n fuel : nat) (axis : option nat) (f : field) :
  all_grid grid_space axis (Z.of_nat n) = Some true ->
  0 <= layout_index f <= Z.of_nat n ->
  (Z.to_nat (Z.of_nat n - layout_index f) <= fuel)%nat ->
  (forall i, layout_index f <= i <= Z.of_nat n ->
     is_Some (all_grid grid_space axis i)) ->
  exists j : Z,
    layout_index f <= j <= Z.of_nat n
    /\ all_grid grid_space axis j = Some true
    /\ (forall i, layout_index f <= i < j -> all_grid grid_space axis i = Some false)
    /\ require_grid_space grid_space (chain n) fuel axis f
       = Done {| layout_index := j;
                 steps := steps f
                          ++ up_steps (layout_index f) (Z.to_nat (j - layout_index f)) |}.
Proof.
  intros Hn Hf Hfuel Hdef.
  destruct (require_grid_space_ascends grid_space n axis Hn
              (Z.to_nat (Z.of_nat n - layout_index f)) fuel f)
    as (k & Hk & Hkt & Hkf & Hres); [lia | lia | lia | exact Hdef |].
  exists (layout_index f + Z.of_nat k). split; [lia|]. split; [exact Hkt|].
  split; [exact Hkf|]. rewrite Hres. repeat f_equal. lia.
Qed.

Lemma require_grid_space_stops_at_first_grid_layout_witness :
  require_grid_space
    (fun i => if i <=? 1 then [false; false] else if i <=? 2 then [false; true]
              else [true; true])
    (chain 3) 3 None {| layout_index := 1; steps := [] |}
  = Done {| layout_index := 3; steps := [Increment 1; Increment 2] |}.
Proof.
  destruct (require_grid_space_stops_at_first_grid_layout
              (fun i => if i <=? 1 then [false; false] else if i <=? 2 then [false; true]
                        else [true; true])
              3 3 None {| layout_index := 1; steps := [] |})
    as (j & Hj & Hjf & Hjt & Hres).
  - reflexivity.
  - simpl. lia.
  - simpl. lia.
  - intros i Hi. eexists. reflexivity.
  - reflexivity.
Defined.

(** ** Composing layout changes, and the ends of the chain *)

Lemma require_layout_walk (n fuel : nat) (L : Z) (f : field) :
  0 <= layout_index f <= Z.of_nat n -> 0 <= L <= Z.of_nat n ->
  (Z.abs_nat (L - layout_index f) <= fuel)%nat ->
  require_layout (chain n) fuel L f
  = Done {| layout_index := L; steps := steps f ++ walk (layout_index f) L |}.
Proof.
  intros Hf HL Hfuel. unfold require_layout, walk.
  destruct (Z.ltb_spec (layout_index f) L) as [Hlt|Hge].
  - apply while_below_walk; lia.
  - destruct (Z.gtb_spec (layout_index f) L) as [Hgt|Hle].
    + apply while_above_walk; lia.
    + assert (layout_index f = L) as Heq by lia.
      rewrite Heq, Z.sub_diag. simpl.
      destruct f as [i st]; simpl in *. subst i. rewrite app_nil_r. reflexivity.
Qed.

Lemma length_walk (a b : Z) : length (walk a b) = Z.abs_nat (b - a).
Proof.
  unfold walk, up_steps, down_steps.
  destruct (Z.ltb_spec a b); rewrite length_map, length_seq; lia.
Qed.

(** X13. Layout changes compose: [require_layout(L1)] followed by
    [require_layout(L2)] leaves the field at [L2], its steps being those to
    [L1] followed by those from [L1] to [L2]; going to a layout and back
    returns the field to its layout after twice the distance in steps. *)
Theorem require_layout_composes (n fuel1 fuel2 : nat) (L1 L2 : Z) (f : field) :
  0 <= layout_index f <= Z.of_nat n ->
  0 <= L1 <= Z.of_nat n -> 0 <= L2 <= Z.of_nat n ->
  (Z.abs_nat (L1 - layout_index f) <= fuel1)%nat ->
  (Z.abs_nat (L2 - L1) <= fuel2)%nat ->
  exists f1,
    require_layout (chain n) fuel1 L1 f = Done f1
    /\ require_layout (chain n) fuel2 L2 f1
       = Done {| layout_index := L2;
                 steps := steps f ++ walk (layout_index f) L1 ++ walk L1 L2 |}
    /\ (L2 = layout_index f ->
        length (walk (layout_index f) L1 ++ walk L1 L2)
        = (2 * Z.abs_nat (L1 - layout_index f))%nat).
Proof.
  intros Hf H1 H2 Hfuel1 Hfuel2.
  eexists. split; [apply require_layout_walk; assumption|].
  split.
  - rewrite require_layout_walk by (simpl; assumption).
    simpl. rewrite <- app_assoc. reflexivity.
  - intros ->. rewrite length_app, !length_walk. lia.
Qed.

Lemma require_layout_composes_witness :
  exists f1,
    require_layout (chain 3) 2 3 {| layout_index := 1; steps := [] |} = Done f1
    /\ require_layout (chain 3) 2 1 f1
       = Done {| layout_index := 1;
                 steps := [Increment 1; Increment 2; Decrement 2; Decrement 1] |}.
Proof.
  destruct (require_layout_composes 3 2 2 3 1 {| layout_index := 1; steps := [] |})
    as (f1 & Ha & Hb & _); simpl; try lia.
  exists f1. split; [exact Ha | exact Hb].
Defined.


End FieldLayout.

(* ===================================================================== *)
(** * 2. Pencil sets ([dedalus2/data/pencil.py]) *)
(* ===================================================================== *)

Module PencilSet.

Local Open Scope nat_scope.

(** An n-dimensional array in C order, kept as its transverse shape (all
    axes but the last) and one row per transverse position; the row of the
    transverse multi-index [(i_0, ..., i_{d-2})] is the one at its row-major
    offset. *)
Record ndarray := { trans_shape : list nat; rows : list (list Z) }.

(** The positions a Python slice [start::step] selects in a sequence of
    length [len] ([step] positive). *)
Definition slice_count (start step len : nat) : nat :=
  if start <? len then (len - start + step - 1) / step else 0.

Definition slice_indices (start step len : nat) : list nat :=
  map (fun k => start + k * step) (seq 0 (slice_count start step len)).

(** Reading [row[start::step]]. *)
Definition getslice (start step : nat) (row : list Z) : list Z :=
  omap (fun j => row !! j) (slice_indices start step (length row)).

(** Element-wise assignment [row[j_k] = v_k]. *)
Definition assign (row : list Z) (jvs : list (nat * Z)) : list Z :=
  foldl (fun r jv => <[jv.1 := jv.2]> r) row jvs.

(** [np.copyto(row[start::step], vals)] on one row.  The source must have
    as many entries as the slice selects (broadcasting of a length-one
    source is not modelled); otherwise NumPy raises. *)
Definition copyto_slice (start step : nat) (row vals : list Z) : option (list Z) :=
  let idx := slice_indices start step (length row) in
  if decide (length vals = length idx) then Some (assign row (zip idx vals))
  else None.

(** The same copy on every transverse row: [np.copyto(a[..., start::step], src)]. *)
Fixpoint copyto_rows (start step : nat) (a src : list (list Z)) : option (list (list Z)) :=
  match a, src with
  | [], [] => Some []
  | row :: a', vals :: src' =>
      r ← copyto_slice start step row vals;
      rest ← copyto_rows start step a' src';
      Some (r :: rest)
  | _, _ => None
  end.

(** [np.copyto(dst, a[..., start::step])]: shapes must agree. *)
Fixpoint copyfrom_rows (start step : nat) (dst a : list (list Z)) : option (list (list Z)) :=
  match dst, a with
  | [], [] => Some []
  | old :: dst', row :: a' =>
      if decide (length old = length (getslice start step row)) then
        rest ← copyfrom_rows start step dst' a';
        Some (getslice start step row :: rest)
      else None
  | _, _ => None
  end.

(** A field, as far as the pencil set sees it: whether it is in the
    coefficient layout, and its data in the current layout. *)
Record field := { coeff_space : bool; data : list (list Z) }.

(** A system of fields: [system.fields.values()] in order, and
    [system.n_fields]. *)
Record system := { fields : list field; n_fields : nat }.

(** The pencil set's buffer and recorded per-field extent. *)
Record pencilset := { stride : nat; buffer : ndarray }.

Section Copies.

(** The backward transform chain to coefficient space (external). *)
Variable to_coeff : list (list Z) -> list (list Z).

(** [Field.require_coeff_space()] *)
Definition require_coeff_space (f : field) : field :=
  if coeff_space f then f
  else {| coeff_space := true; data := to_coeff (data f) |}.

(** [PencilSet.__init__]: [stride = shape[-1]], buffer of zeros with the
    last axis extended to [stride * n_fields]. *)
Definition init (shape : list nat) (last : nat) (n : nat) : pencilset :=
  {| stride := last;
     buffer := {| trans_shape := shape;
                  rows := replicate (foldr Nat.mul 1 shape)
                                    (replicate (last * n) 0%Z) |} |}.

(** The loop of [PencilSet.get_system] over [enumerate(fields)] from
    position [i] on; returns the new buffer rows and the fields (moved to
    coefficient space). *)
Fixpoint get_loop (step : nat) (i : nat) (fs : list field) (buf : list (list Z))
  : option (list (list Z) * list field) :=
  match fs with
  | [] => Some (buf, [])
  | f :: fs' =>
      let f' := require_coeff_space f in
      buf' ← copyto_rows i step buf (data f');
      r ← get_loop step (S i) fs' buf';
      Some (r.1, f' :: r.2)
  end.

(** [PencilSet.get_system] *)
Definition get_system (ps : pencilset) (sys : system) : option (pencilset * system) :=
  r ← get_loop (n_fields sys) 0 (fields sys) (rows (buffer ps));
  Some ({| stride := stride ps;
           buffer := {| trans_shape := trans_shape (buffer ps); rows := r.1 |} |},
        {| fields := r.2; n_fields := n_fields sys |}).

(** The loop of [PencilSet.set_system]: the field is put in the
    coefficient layout (its data view keeps the coefficient shape) and
    the strided slice is copied into it. *)
Fixpoint set_loop (step : nat) (i : nat) (fs : list field) (buf : list (list Z))
  : option (list field) :=
  match fs with
  | [] => Some []
  | f :: fs' =>
      d ← copyfrom_rows i step (data f) buf;
      r ← set_loop step (S i) fs' buf;
      Some ({| coeff_space := true; data := d |} :: r)
  end.

(** [PencilSet.set_system] *)
Definition set_system (ps : pencilset) (sys : system) : option system :=
  r ← set_loop (n_fields sys) 0 (fields sys) (rows (buffer ps));
  Some {| fields := r; n_fields := n_fields sys |}.

End Copies.

(** ** Slices and strided copies on one row *)

Lemma slice_count_bound (start step len k : nat) :
  0 < step -> k < slice_count start step len -> start + k * step < len.
Proof.
  unfold slice_count. intros Hs Hk.
  destruct (Nat.ltb_spec start len) as [Hlt|Hge]; [|lia].
  pose proof (Nat.Div0.mul_div_le (len - start + step - 1) step) as Hq.
  nia.
Qed.

Lemma slice_count_interleaved (i n w : nat) :
  i < n -> slice_count i n (w * n) = w.
Proof.
  intros Hi. unfold slice_count.
  destruct (Nat.ltb_spec i (w * n)) as [Hlt|Hge].
  - replace (w * n - i + n - 1) with (w * n + (n - 1 - i)) by lia.
    rewrite Nat.div_add_l by lia. rewrite Nat.div_small by lia. lia.
  - destruct w; [reflexivity | nia].
Qed.

Lemma slice_indices_lookup (start step len k j : nat) :
  slice_indices start step len !! k = Some j ->
  j = start + k * step /\ k < slice_count start step len.
Proof.
  unfold slice_indices. rewrite list_lookup_fmap.
  destruct (seq 0 (slice_count start step len) !! k) as [k'|] eqn:E; [|discriminate].
  apply lookup_seq in E as [-> Hk]. simpl. intros [= <-]. split; [reflexivity | exact Hk].
Qed.

Lemma slice_indices_NoDup (start step len : nat) :
  0 < step -> NoDup (slice_indices start step len).
Proof.
  intros Hs. unfold slice_indices. apply NoDup_fmap_2; [|apply NoDup_seq].
  intros a b Hab. nia.
Qed.

Lemma length_assign (row : list Z) (jvs : list (nat * Z)) :
  length (assign row jvs) = length row.
Proof.
  unfold assign. revert row. induction jvs as [|jv jvs IH]; intros row; simpl;
    [reflexivity|]. rewrite IH. apply length_insert.
Qed.

Lemma assign_lookup_other (row : list Z) (jvs : list (nat * Z)) (j : nat) :
  j ∉ jvs.*1 -> assign row jvs !! j = row !! j.
Proof.
  unfold assign. revert row. induction jvs as [|[j0 v0] jvs IH]; intros row Hj;
    simpl in *; [reflexivity|].
  apply not_elem_of_cons in Hj as [Hne Hj].
  rewrite IH by exact Hj. apply list_lookup_insert_ne. congruence.
Qed.

Lemma assign_lookup_written (idx : list nat) :
  forall (vals row : list Z) (k j : nat),
    NoDup idx -> length vals = length idx ->
    idx !! k = Some j -> j < length row ->
    assign row (zip idx vals) !! j = vals !! k.
Proof.
  induction idx as [|j0 idx IH]; intros vals row k j Hnd Hlen Hk Hj;
    [discriminate|].
  destruct vals as [|v0 vals]; [discriminate|].
  apply NoDup_cons in Hnd as [Hnotin Hnd]. simpl in Hlen.
  destruct k as [|k]; simpl in *.
  - injection Hk as ->.
    change (assign (<[j:=v0]> row) (zip idx vals) !! j = Some v0).
    rewrite assign_lookup_other.
    + apply list_lookup_insert_eq. exact Hj.
    + intros Hin. apply Hnotin.
      apply list_elem_of_fmap in Hin as [[a b] [-> Hin]].
      apply elem_of_zip_l in Hin. exact Hin.
  - change (assign (<[j0:=v0]> row) (zip idx vals) !! j = vals !! k).
    apply IH; auto. rewrite length_insert. exact Hj.
Qed.

Lemma omap_lookup_eq (f : nat -> option Z) (idx : list nat) :
  forall vals : list Z,
    length vals = length idx ->
    (forall k j, idx !! k = Some j -> f j = vals !! k) ->
    omap f idx = vals.
Proof.
  induction idx as [|j idx IH]; intros vals Hlen H.
  - destruct vals; [reflexivity | discriminate].
  - destruct vals as [|v vals]; [discriminate|]. simpl.
    rewrite (H 0 j eq_refl). simpl. f_equal.
    apply IH; [simpl in Hlen; lia|]. intros k j' Hk. apply (H (S k) j' Hk).
Qed.

Lemma omap_agree (f g : nat -> option Z) (idx : list nat) :
  (forall j, j ∈ idx -> f j = g j) -> omap f idx = omap g idx.
Proof.
  induction idx as [|j idx IH]; intros H; [reflexivity|].
  assert (Hrest : omap f idx = omap g idx).
  { apply IH. intros j' Hj'. apply H. right. exact Hj'. }
  simpl. rewrite (H j) by (left). destruct (g j); simpl.
  - f_equal. exact Hrest.
  - exact Hrest.
Qed.

Lemma copyto_slice_length (start step : nat) (row vals r : list Z) :
  copyto_slice start step row vals = Some r -> length r = length row.
Proof.
  unfold copyto_slice. case_decide; [|discriminate].
  intros [= <-]. apply length_assign.
Qed.

(** Reading back the slice that was just written returns the source. *)
Lemma getslice_copyto_same (start step : nat) (row vals r : list Z) :
  0 < step ->
  copyto_slice start step row vals = Some r ->
  getslice start step r = vals.
Proof.
  intros Hs Hc. pose proof (copyto_slice_length _ _ _ _ _ Hc) as Hlen.
  unfold copyto_slice in Hc. case_decide as Hl; [|discriminate].
  injection Hc as <-. unfold getslice. rewrite Hlen.
  apply omap_lookup_eq; [exact Hl|].
  intros k j Hk. apply assign_lookup_written; auto.
  - apply slice_indices_NoDup. exact Hs.
  - apply slice_indices_lookup in Hk as [-> Hk].
    apply slice_count_bound; assumption.
Qed.

(** Writing the slice starting at [j] leaves the slice starting at another
    residue [i] untouched. *)
Lemma getslice_copyto_other (i j n : nat) (row vals r : list Z) :
  i < n -> j < n -> i <> j ->
  copyto_slice j n row vals = Some r ->
  getslice i n r = getslice i n row.
Proof.
  intros Hi Hj Hne Hc. pose proof (copyto_slice_length _ _ _ _ _ Hc) as Hlen.
  unfold copyto_slice in Hc. case_decide as Hl; [|discriminate].
  injection Hc as <-. unfold getslice. rewrite Hlen.
  apply omap_agree. intros c Hc. apply assign_lookup_other.
  intros Hin. apply list_elem_of_fmap in Hin as [[a b] [-> Hin]].
  apply elem_of_zip_l in Hin. simpl in *.
  apply list_elem_of_lookup in Hc as [k Hk].
  apply list_elem_of_lookup in Hin as [k' Hk'].
  apply slice_indices_lookup in Hk as [Hk _].
  apply slice_indices_lookup in Hk' as [Hk' _].
  assert (Hmod : (i + k * n) mod n = (j + k' * n) mod n) by congruence.
  rewrite !Nat.Div0.mod_add, !Nat.mod_small in Hmod by lia. lia.
Qed.

(** ** Strided copies on whole arrays *)

(** [a[..., start::step]] *)
Definition slice_rows (start step : nat) (a : list (list Z)) : list (list Z) :=
  map (getslice start step) a.

(** Every row of [a] has [w] entries. *)
Definition width (w : nat) (a : list (list Z)) : Prop :=
  Forall (fun r => length r = w) a.

Lemma copyto_rows_defined (i n w : nat) :
  i < n ->
  forall a src : list (list Z),
    length a = length src -> width (w * n) a -> width w src ->
    exists a', copyto_rows i n a src = Some a'.
Proof.
  intros Hi. induction a as [|row a IH]; intros src Hlen Ha Hs.
  - destruct src; [|discriminate]. eexists; reflexivity.
  - destruct src as [|vals src]; [discriminate|].
    apply Forall_cons in Ha as [Hrow Ha]. apply Forall_cons in Hs as [Hvals Hs].
    destruct (IH src) as [a' Ha']; auto.
    simpl. unfold copyto_slice at 1. rewrite Hrow.
    unfold slice_indices. rewrite length_map, length_seq, slice_count_interleaved by exact Hi.
    rewrite decide_True by exact Hvals. simpl. rewrite Ha'. simpl. eexists; reflexivity.
Qed.

Lemma copyto_rows_inv (start step : nat) :
  forall a src a' : list (list Z),
    copyto_rows start step a src = Some a' ->
    Forall3 (fun row vals r => copyto_slice start step row vals = Some r) a src a'.
Proof.
  induction a as [|row a IH]; intros src a' H.
  - destruct src; [|discriminate]. injection H as <-. constructor.
  - destruct src as [|vals src]; [discriminate|]. simpl in H.
    destruct (copyto_slice start step row vals) as [r|] eqn:Er; [|discriminate].
    simpl in H.
    destruct (copyto_rows start step a src) as [rest|] eqn:Erest; [|discriminate].
    injection H as <-. constructor; auto.
Qed.

Lemma copyto_rows_width (start step w : nat) (a src a' : list (list Z)) :
  copyto_rows start step a src = Some a' ->
  (length a' = length a /\ length src = length a) /\ (width w a -> width w a').
Proof.
  intros H. apply copyto_rows_inv in H.
  induction H as [|row vals r a src a' Hc _ IH].
  - repeat split; auto.
  - destruct IH as [[IH1 IH2] IH3]. repeat split; simpl; try congruence.
    intros Hw. apply Forall_cons in Hw as [Hr Hw]. apply Forall_cons. split.
    + apply copyto_slice_length in Hc. congruence.
    + apply IH3, Hw.
Qed.

Lemma slice_rows_copyto_same (start step : nat) (a src a' : list (list Z)) :
  0 < step ->
  copyto_rows start step a src = Some a' ->
  slice_rows start step a' = src.
Proof.
  intros Hs H. apply copyto_rows_inv in H.
  induction H as [|row vals r a src a' Hc _ IH]; [reflexivity|].
  simpl. f_equal; [|exact IH]. eapply getslice_copyto_same; eauto.
Qed.

Lemma slice_rows_copyto_other (i j n : nat) (a src a' : list (list Z)) :
  i < n -> j < n -> i <> j ->
  copyto_rows j n a src = Some a' ->
  slice_rows i n a' = slice_rows i n a.
Proof.
  intros Hi Hj Hne H. apply copyto_rows_inv in H.
  induction H as [|row vals r a src a' Hc _ IH]; [reflexivity|].
  simpl. f_equal; [|exact IH]. eapply getslice_copyto_other; eauto.
Qed.

Lemma copyfrom_rows_slices (start step : nat) :
  forall dst a d : list (list Z),
    copyfrom_rows start step dst a = Some d -> d = slice_rows start step a.
Proof.
  induction dst as [|old dst IH]; intros a d H.
  - destruct a; [|discriminate]. injection H as <-. reflexivity.
  - destruct a as [|row a]; [discriminate|]. simpl in H.
    case_decide; [|discriminate].
    destruct (copyfrom_rows start step dst a) as [rest|] eqn:E; [|discriminate].
    injection H as <-. simpl. f_equal. apply IH. exact E.
Qed.

Lemma copyfrom_rows_defined (start step : nat) :
  forall dst a : list (list Z),
    Forall2 (fun old new => length old = length new) dst (slice_rows start step a) ->
    copyfrom_rows start step dst a = Some (slice_rows start step a).
Proof.
  induction dst as [|old dst IH]; intros a H.
  - destruct a; [reflexivity|]. inversion H.
  - destruct a as [|row a]; [inversion H|]. simpl in *.
    apply Forall2_cons in H as [Hl H].
    rewrite decide_True by exact Hl. rewrite IH by exact H. reflexivity.
Qed.

(** ** The copy loops *)

Section Loops.

Variable to_coeff : list (list Z) -> list (list Z).
Variable n : nat.
Hypothesis n_pos : 0 < n.

Lemma get_loop_slices :
  forall (fs : list field) (i : nat) (buf buf' : list (list Z)) (fs' : list field),
    get_loop to_coeff n i fs buf = Some (buf', fs') ->
    i + length fs <= n ->
    fs' = map (require_coeff_space to_coeff) fs
    /\ length buf' = length buf
    /\ (forall w, width w buf -> width w buf')
    /\ (forall j, j < n -> j < i \/ i + length fs <= j ->
          slice_rows j n buf' = slice_rows j n buf)
    /\ (forall k f, fs' !! k = Some f -> slice_rows (i + k) n buf' = data f).
Proof using n_pos.
  induction fs as [|f fs IH]; intros i buf buf' fs' H Hi.
  - injection H as <- <-. repeat split; auto. intros k f. discriminate.
  - simpl in H.
    destruct (copyto_rows i n buf (data (require_coeff_space to_coeff f)))
      as [buf1|] eqn:E1; [|discriminate]. simpl in H.
    destruct (get_loop to_coeff n (S i) fs buf1) as [[buf2 fs2]|] eqn:E2;
      [|discriminate]. simpl in H. injection H as <- <-.
    simpl in Hi.
    destruct (IH (S i) buf1 buf2 fs2 E2) as (Hfs & Hlen & Hw & Hother & Hmine); [lia|].
    pose proof (copyto_rows_width i n) as Hcw.
    split; [|split; [|split; [|split]]].
    + simpl. f_equal. exact Hfs.
    + rewrite Hlen. apply (Hcw 0 _ _ _ E1).
    + intros w Hwb. apply Hw. apply (Hcw w _ _ _ E1). exact Hwb.
    + intros j Hj Hrange. simpl in Hrange. rewrite Hother by lia.
      eapply slice_rows_copyto_other; [ | | | exact E1]; lia.
    + intros k g Hk. destruct k as [|k]; simpl in Hk.
      * injection Hk as <-. rewrite Nat.add_0_r, Hother by lia.
        eapply slice_rows_copyto_same; eauto.
      * replace (i + S k) with (S i + k) by lia. apply Hmine. exact Hk.
Qed.

Lemma get_loop_defined (w : nat) :
  forall (fs : list field) (i : nat) (buf : list (list Z)),
    i + length fs <= n -> width (w * n) buf ->
    Forall (fun f => length (data (require_coeff_space to_coeff f)) = length buf
                     /\ width w (data (require_coeff_space to_coeff f))) fs ->
    exists r, get_loop to_coeff n i fs buf = Some r.
Proof using n_pos.
  induction fs as [|f fs IH]; intros i buf Hi Hbuf Hfs.
  - eexists; reflexivity.
  - apply Forall_cons in Hfs as [[Hlen Hw] Hfs]. simpl in Hi.
    destruct (copyto_rows_defined i n w ltac:(lia) buf _ (eq_sym Hlen) Hbuf Hw)
      as [buf1 E1].
    pose proof (copyto_rows_width i n (w * n) _ _ _ E1) as [[Hl1 _] Hw1].
    destruct (IH (S i) buf1) as [r E2]; [lia | auto |
      eapply Forall_impl; [exact Hfs | simpl; intros g [? ?]; split; [congruence | assumption]] |].
    simpl. rewrite E1. simpl. rewrite E2. simpl. eexists; reflexivity.
Qed.

Lemma set_loop_slices :
  forall (fs : list field) (i : nat) (buf : list (list Z)) (fs' : list field),
    set_loop n i fs buf = Some fs' ->
    length fs' = length fs
    /\ forall k f, fs' !! k = Some f ->
         coeff_space f = true /\ data f = slice_rows (i + k) n buf.
Proof using n_pos.
  induction fs as [|f fs IH]; intros i buf fs' H.
  - injection H as <-. split; [reflexivity|]. intros k f. discriminate.
  - simpl in H.
    destruct (copyfrom_rows i n (data f) buf) as [d|] eqn:E1; [|discriminate].
    simpl in H.
    destruct (set_loop n (S i) fs buf) as [r|] eqn:E2; [|discriminate].
    injection H as <-. destruct (IH _ _ _ E2) as [Hlen Hr].
    split; [simpl; congruence|].
    intros k g Hk. destruct k as [|k]; simpl in Hk.
    + injection Hk as <-. simpl. rewrite Nat.add_0_r.
      split; [reflexivity|]. eapply copyfrom_rows_slices; eauto.
    + replace (i + S k) with (S i + k) by lia. apply Hr. exact Hk.
Qed.

Lemma set_loop_roundtrip :
  forall (fs : list field) (i : nat) (buf : list (list Z)),
    (forall k f, fs !! k = Some f ->
       coeff_space f = true /\ slice_rows (i + k) n buf = data f) ->
    set_loop n i fs buf = Some fs.
Proof using n_pos.
  induction fs as [|f fs IH]; intros i buf H; [reflexivity|].
  destruct (H 0 f eq_refl) as [Hc Hd]. rewrite Nat.add_0_r in Hd.
  simpl. rewrite copyfrom_rows_defined.
  - simpl. rewrite IH.
    + simpl. rewrite Hd. destruct f as [c d]; simpl in *. subst c. reflexivity.
    + intros k g Hk. replace (S i + k) with (i + S k) by lia. apply H. exact Hk.
  - rewrite Hd. clear. induction (data f); constructor; auto.
Qed.

End Loops.

(** ** Where a field's coefficients sit in the buffer *)

Lemma omap_total_lookup (f : nat -> option Z) (idx : list nat) :
  (forall j, j ∈ idx -> is_Some (f j)) ->
  forall k, omap f idx !! k = idx !! k ≫= f.
Proof.
  induction idx as [|j idx IH]; intros H k; [reflexivity|].
  destruct (H j) as [v Hv]; [left|]. simpl. rewrite Hv. simpl.
  destruct k as [|k]; simpl; [symmetry; exact Hv|].
  apply IH. intros j' Hj'. apply H. right. exact Hj'.
Qed.

Lemma getslice_lookup (start step : nat) (row : list Z) (k : nat) (v : Z) :
  0 < step ->
  getslice start step row !! k = Some v -> row !! (start + k * step) = Some v.
Proof.
  intros Hs. unfold getslice. rewrite omap_total_lookup.
  - destruct (slice_indices start step (length row) !! k) as [j|] eqn:E; [|discriminate].
    apply slice_indices_lookup in E as [-> _]. simpl. auto.
  - intros j Hj. apply list_elem_of_lookup in Hj as [k' Hk'].
    apply slice_indices_lookup in Hk' as [-> Hk'].
    apply lookup_lt_is_Some. apply slice_count_bound; assumption.
Qed.

(** [occupies step i buf d]: entry [k] of every row of the field data [d]
    is found in the same row of the buffer at column [i + k * step]. *)
Definition occupies (step i : nat) (buf d : list (list Z)) : Prop :=
  forall (t k : nat) (row vals : list Z) (v : Z),
    buf !! t = Some row -> d !! t = Some vals -> vals !! k = Some v ->
    row !! (i + k * step) = Some v.

(** The columns of the buffer that [data[..., i::n_fields]] selects. *)
Definition field_columns (n_fields stride i : nat) : list nat :=
  slice_indices i n_fields (stride * n_fields).

Lemma slice_rows_occupies (step i : nat) (buf d : list (list Z)) :
  0 < step -> slice_rows i step buf = d -> occupies step i buf d.
Proof.
  intros Hs <- t k row vals v Hrow Hvals Hv.
  unfold slice_rows in Hvals. rewrite list_lookup_fmap, Hrow in Hvals.
  injection Hvals as <-. eapply getslice_lookup; eauto.
Qed.

Lemma field_columns_spec (n_fields stride i : nat) :
  i < n_fields ->
  field_columns n_fields stride i = map (fun k => i + k * n_fields) (seq 0 stride).
Proof.
  intros Hi. unfold field_columns, slice_indices.
  rewrite slice_count_interleaved by exact Hi. reflexivity.
Qed.

(** C4, as amended.  The step of the interleaving is the number of fields,
    not the per-field extent: the slice that [get_system] writes and
    [set_system] reads for field [i] is the columns
    [i, i + n_fields, i + 2 * n_fields, ...], one per coefficient
    ([stride] of them); after [get_system] coefficient [k] of field [i]
    sits at column [i + k * n_fields] of the same transverse row, and
    [set_system] gives field [i] exactly the entries of those columns. *)
Theorem field_columns_interleaved_by_n_fields
    (to_coeff : list (list Z) -> list (list Z))
    (ps : pencilset) (sys : system) (i : nat) :
  n_fields sys = length (fields sys) ->
  i < n_fields sys ->
  field_columns (n_fields sys) (stride ps) i
  = map (fun k => i + k * n_fields sys) (seq 0 (stride ps))
  /\ (forall ps' sys' f,
        get_system to_coeff ps sys = Some (ps', sys') ->
        fields sys' !! i = Some f ->
        occupies (n_fields sys) i (rows (buffer ps')) (data f))
  /\ (forall sys' f,
        set_system ps sys = Some sys' ->
        fields sys' !! i = Some f ->
        data f = slice_rows i (n_fields sys) (rows (buffer ps))
        /\ occupies (n_fields sys) i (rows (buffer ps)) (data f)).
Proof.
  intros Hn Hi. split; [apply field_columns_spec; exact Hi|]. split.
  - intros ps' sys' f Hget Hf. unfold get_system in Hget.
    destruct (get_loop to_coeff (n_fields sys) 0 (fields sys) (rows (buffer ps)))
      as [[buf' fs']|] eqn:E; [|discriminate].
    injection Hget as <- <-. simpl in *.
    destruct (get_loop_slices to_coeff (n_fields sys) ltac:(lia) _ _ _ _ _ E)
      as (_ & _ & _ & _ & Hmine); [lia|].
    apply slice_rows_occupies; [lia|]. apply (Hmine i f Hf).
  - intros sys' f Hset Hf. unfold set_system in Hset.
    destruct (set_loop (n_fields sys) 0 (fields sys) (rows (buffer ps)))
      as [fs'|] eqn:E; [|discriminate].
    injection Hset as <-. simpl in Hf.
    destruct (set_loop_slices (n_fields sys) ltac:(lia) _ _ _ _ E) as [_ Hr].
    destruct (Hr i f Hf) as [_ Hd]. simpl in Hd.
    split; [exact Hd|]. apply slice_rows_occupies; [lia | symmetry; exact Hd].
Qed.

Lemma field_columns_interleaved_by_n_fields_witness :
  field_columns 2 3 1 = [1; 3; 5].
Proof.
  apply (field_columns_interleaved_by_n_fields (fun d => d)
           (init [1] 3 2)
           {| fields := [ {| coeff_space := true; data := [[10; 11; 12]%Z] |};
                          {| coeff_space := true; data := [[20; 21; 22]%Z] |} ];
              n_fields := 2 |} 1); simpl; lia.
Defined.

(** C4, as stated, fails: with two fields of three coefficients each,
    [get_system] leaves coefficient 1 of field 0 at column 2, and column
    [0 + 1 * stride = 3] holds a coefficient of field 1. *)
Lemma stride_is_not_the_interleaving_step :
  let ps := init [1] 3 2 in
  let sys := {| fields := [ {| coeff_space := true; data := [[10; 11; 12]%Z] |};
                            {| coeff_space := true; data := [[20; 21; 22]%Z] |} ];
                n_fields := 2 |} in
  exists ps' sys' f,
    get_system (fun d => d) ps sys = Some (ps', sys')
    /\ rows (buffer ps') = [[10; 20; 11; 21; 12; 22]%Z]
    /\ fields sys' !! 0 = Some f
    /\ ~ occupies (stride ps) 0 (rows (buffer ps')) (data f).
Proof.
  simpl. eexists _, _, _. split; [vm_compute; reflexivity|].
  split; [reflexivity|]. split; [reflexivity|].
  intros H. specialize (H 0 1 _ _ 11%Z eq_refl eq_refl eq_refl).
  vm_compute in H. discriminate.
Qed.

(** C7. For a system whose fields are all in coefficient space and shaped
    like the coefficient layout ([stride] entries per transverse row, as
    many rows as the buffer), [get_system] succeeds and leaves the fields
    as they are, and [set_system] right after it succeeds and returns
    every field with its coefficient data unchanged. *)
Theorem get_system_set_system_roundtrip
    (to_coeff : list (list Z) -> list (list Z)) (ps : pencilset) (sys : system) :
  n_fields sys = length (fields sys) ->
  width (stride ps * n_fields sys) (rows (buffer ps)) ->
  Forall (fun f => coeff_space f = true
                   /\ length (data f) = length (rows (buffer ps))
                   /\ width (stride ps) (data f)) (fields sys) ->
  exists ps', get_system to_coeff ps sys = Some (ps', sys)
              /\ set_system ps' sys = Some sys.
Proof.
  intros Hn Hbuf Hfs. destruct sys as [fs n]; simpl in *.
  destruct (Nat.eq_dec n 0) as [Hz|Hnz].
  { destruct fs; [|simpl in Hn; lia]. eexists. split; reflexivity. }
  assert (Hpos : 0 < n) by lia.
  assert (Hsame : map (require_coeff_space to_coeff) fs = fs).
  { clear -Hfs. induction Hfs as [|f l [Hc _] _ IH]; [reflexivity|].
    simpl. rewrite IH. unfold require_coeff_space. rewrite Hc. reflexivity. }
  destruct (get_loop_defined to_coeff n Hpos (stride ps) fs 0 (rows (buffer ps)))
    as [[buf' fs'] E]; [lia | exact Hbuf | |].
  { eapply Forall_impl; [exact Hfs|]. simpl. intros f (Hc & Hl & Hw).
    unfold require_coeff_space. rewrite Hc. split; assumption. }
  destruct (get_loop_slices to_coeff n Hpos _ _ _ _ _ E)
    as (Hfs' & _ & _ & _ & Hmine); [lia|].
  rewrite Hsame in Hfs'. subst fs'.
  eexists. unfold get_system, set_system; simpl. rewrite E. simpl.
  split; [reflexivity|].
  cbn [rows buffer]. rewrite (set_loop_roundtrip n Hpos fs 0 buf'); [reflexivity|].
  intros k f Hk. split; [|apply Hmine; exact Hk].
  rewrite Forall_lookup in Hfs. apply (Hfs k f Hk).
Qed.

Lemma get_system_set_system_roundtrip_witness :
  let sys := {| fields := [ {| coeff_space := true; data := [[10; 11; 12]%Z] |};
                            {| coeff_space := true; data := [[20; 21; 22]%Z] |} ];
                n_fields := 2 |} in
  exists ps', get_system (fun d => d) (init [1] 3 2) sys = Some (ps', sys)
              /\ set_system ps' sys = Some sys.
Proof.
  apply (get_system_set_system_roundtrip (fun d => d) (init [1] 3 2)).
  - reflexivity.
  - repeat constructor.
  - repeat constructor.
Defined.

(** ** Pencils: [PencilSet._construct_pencil_info] and [Pencil.__init__] *)

(** A Python slice object as the pencil code builds them. *)
Inductive pyslice :=
| Slice (start stop : nat)   (* [slice(i, i+1)] *)
| SliceAll.                  (* [slice(None)] *)

(** A basis, as far as pencils see it: its transverse differentiation
    constant (external). *)
Record basis := { trans_diff : nat -> Z }.

(** The [divmod] loop over [reversed(trans_shape)] for the entry [p] of
    [np.arange(np.prod(trans_shape))]: the successive remainders
    (NumPy's remainder by zero is zero, as [Nat.modulo]'s). *)
Fixpoint divmod_loop (rshape : list nat) (div : nat) : list nat :=
  match rshape with
  | [] => []
  | s :: rshape' => (div mod s) :: divmod_loop rshape' (div / s)
  end.

(** Entry [p] of the transposed, re-reversed remainder lists: the index
    tuple of pencil [p], one entry per transverse axis. *)
Definition pencil_index (shape : list nat) (p : nat) : list nat :=
  reverse (divmod_loop (reverse shape) p).

(** [index_list] *)
Definition index_list (dim : nat) (shape : list nat) : list (list nat) :=
  if decide (dim = 1) then [[]]
  else match shape with
       | [] => []   (* transposing no remainder lists gives no tuples *)
       | _ => map (pencil_index shape) (seq 0 (foldr Nat.mul 1 shape))
       end.

(** The inner loop over [enumerate(domain.bases[:-1])]; [None] when an
    index is out of range. *)
Fixpoint pencil_info_loop (n : nat) (bases : list basis) (start idx : list nat)
  : option (list pyslice * list Z) :=
  match bases with
  | [] => Some ([], [])
  | b :: bases' =>
      i ← idx !! n;
      st ← start !! n;
      r ← pencil_info_loop (S n) bases' start idx;
      Some (Slice i (i + 1) :: r.1, trans_diff b (st + i) :: r.2)
  end.

(** One pencil's slice list (with the full slice for the last axis) and
    its [d_trans]. *)
Definition pencil_info (bases : list basis) (start idx : list nat)
  : option (list pyslice * list Z) :=
  r ← pencil_info_loop 0 (take (length bases - 1) bases) start idx;
  Some (r.1 ++ [SliceAll], r.2).

(** [PencilSet._construct_pencil_info]: for every pencil, its slices and
    its transverse constants. *)
Definition construct_pencil_info (bases : list basis) (start shape : list nat)
  : option (list (list pyslice * list Z)) :=
  mapM (pencil_info bases start) (index_list (length bases) shape).

(** Whether a slice selects position [i] of its axis. *)
Definition in_slice (sl : pyslice) (i : nat) : bool :=
  match sl with
  | Slice a b => (a <=? i) && (i <? b)
  | SliceAll => true
  end.

(** Whether the buffer cell of multi-index [cell] lies in the region
    [set_data[slices]]. *)
Fixpoint selects (slices : list pyslice) (cell : list nat) : bool :=
  match slices, cell with
  | [], [] => true
  | sl :: slices', i :: cell' => in_slice sl i && selects slices' cell'
  | _, _ => false
  end.

(** Row-major (C order) offset of a transverse multi-index. *)
Definition ravel (shape idx : list nat) : nat :=
  foldl (fun acc si => acc * si.1 + si.2) 0 (zip shape idx).

(** The transverse index a pencil's slices fix, read back from them. *)
Fixpoint fixed_index (slices : list pyslice) : list nat :=
  match slices with
  | Slice a _ :: slices' => a :: fixed_index slices'
  | _ => []
  end.

(** The pencil's data view [set_data[slice].squeeze()]: the buffer row at
    the offset of its transverse index. *)
Definition view (a : ndarray) (slices : list pyslice) : option (list Z) :=
  rows a !! ravel (trans_shape a) (fixed_index slices).

(** Writing through the view. *)
Definition view_write (a : ndarray) (slices : list pyslice) (vals : list Z) : ndarray :=
  {| trans_shape := trans_shape a;
     rows := <[ravel (trans_shape a) (fixed_index slices) := vals]> (rows a) |}.

(** ** Pencils partition the buffer *)

Definition prod (shape : list nat) : nat := foldr Nat.mul 1 shape.

Lemma prod_snoc (l : list nat) (s : nat) : prod (l ++ [s]) = prod l * s.
Proof. unfold prod. induction l as [|x l IH]; simpl; [lia|]. rewrite IH. lia. Qed.

Lemma prod_reverse (l : list nat) : prod (reverse l) = prod l.
Proof.
  induction l as [|x l IH]; [reflexivity|].
  rewrite reverse_cons, prod_snoc, IH. unfold prod. simpl. lia.
Qed.

Lemma length_divmod_loop (rs : list nat) :
  forall p, length (divmod_loop rs p) = length rs.
Proof. induction rs as [|s rs IH]; intros p; simpl; [reflexivity|]. rewrite IH. reflexivity. Qed.

Lemma length_pencil_index (shape : list nat) (p : nat) :
  length (pencil_index shape p) = length shape.
Proof.
  unfold pencil_index. rewrite length_reverse, length_divmod_loop, length_reverse.
  reflexivity.
Qed.

Lemma ravel_snoc (shape idx : list nat) (s i : nat) :
  length shape = length idx ->
  ravel (shape ++ [s]) (idx ++ [i]) = ravel shape idx * s + i.
Proof.
  intros Hlen. unfold ravel. rewrite zip_with_app by exact Hlen.
  rewrite foldl_app. reflexivity.
Qed.

(** The remainders, read in axis order, are the row-major digits of [p]. *)
Lemma ravel_divmod_loop (rs : list nat) :
  forall p, p < prod rs ->
    ravel (reverse rs) (reverse (divmod_loop rs p)) = p.
Proof.
  induction rs as [|s rs IH]; intros p Hp.
  - unfold prod in Hp. simpl in Hp. unfold ravel. simpl. lia.
  - change (prod (s :: rs)) with (s * prod rs) in Hp.
    assert (Hs : s <> 0) by (intros ->; lia).
    simpl. rewrite !reverse_cons, ravel_snoc
      by (rewrite !length_reverse, length_divmod_loop; reflexivity).
    rewrite IH.
    + pose proof (Nat.div_mod_eq p s). lia.
    + apply Nat.Div0.div_lt_upper_bound. exact Hp.
Qed.

Lemma divmod_loop_bounds (rs : list nat) :
  forall p, p < prod rs -> Forall2 lt (divmod_loop rs p) rs.
Proof.
  induction rs as [|s rs IH]; intros p Hp; simpl; constructor.
  - change (prod (s :: rs)) with (s * prod rs) in Hp.
    apply Nat.mod_upper_bound. intros ->. lia.
  - apply IH. change (prod (s :: rs)) with (s * prod rs) in Hp.
    apply Nat.Div0.div_lt_upper_bound. exact Hp.
Qed.

Lemma ravel_pencil_index (shape : list nat) (p : nat) :
  p < prod shape -> ravel shape (pencil_index shape p) = p.
Proof.
  intros Hp. unfold pencil_index.
  rewrite <- (reverse_involutive shape) at 1.
  apply ravel_divmod_loop. rewrite prod_reverse. exact Hp.
Qed.

Lemma pencil_index_bounds (shape : list nat) (p : nat) :
  p < prod shape -> Forall2 lt (pencil_index shape p) shape.
Proof.
  intros Hp. unfold pencil_index.
  rewrite <- (reverse_involutive shape) at 2.
  apply Forall2_reverse, divmod_loop_bounds. rewrite prod_reverse. exact Hp.
Qed.

Lemma index_list_rowmajor (dim : nat) (shape : list nat) :
  dim = S (length shape) ->
  index_list dim shape = map (pencil_index shape) (seq 0 (prod shape)).
Proof.
  intros Hd. unfold index_list. case_decide as H1.
  - destruct shape; [reflexivity | simpl in Hd; lia].
  - destruct shape; [simpl in Hd; lia | reflexivity].
Qed.

(** The slices built for a transverse index. *)
Definition index_slices (idx : list nat) : list pyslice :=
  map (fun i => Slice i (i + 1)) idx.

Lemma pencil_info_loop_slices (start idx : list nat) :
  forall (bs : list basis) (n : nat),
    n + length bs <= length idx -> n + length bs <= length start ->
    exists dts, pencil_info_loop n bs start idx
                = Some (index_slices (take (length bs) (drop n idx)), dts).
Proof.
  induction bs as [|b bs IH]; intros n Hi Hs; simpl in *.
  - eexists. reflexivity.
  - destruct (lookup_lt_is_Some_2 idx n ltac:(lia)) as [i Ei].
    destruct (lookup_lt_is_Some_2 start n ltac:(lia)) as [st Est].
    destruct (IH (S n)) as [dts E]; [lia | lia |].
    rewrite Ei, Est. simpl. rewrite E. simpl. eexists. f_equal. f_equal.
    rewrite (drop_S idx i n Ei). reflexivity.
Qed.

Lemma fixed_index_slices (idx : list nat) :
  fixed_index (index_slices idx ++ [SliceAll]) = idx.
Proof. induction idx as [|i idx IH]; simpl; [reflexivity|]. rewrite IH. reflexivity. Qed.

Lemma selects_index_slices (idx : list nat) :
  forall cell, selects (index_slices idx ++ [SliceAll]) cell = true ->
    take (length idx) cell = idx.
Proof.
  induction idx as [|i idx IH]; intros cell H; simpl in *; [reflexivity|].
  destruct cell as [|c cell]; [discriminate|].
  apply andb_true_iff in H as [Hc H]. apply andb_true_iff in Hc as [H1 H2].
  apply Nat.leb_le in H1. apply Nat.ltb_lt in H2.
  simpl. f_equal; [lia|]. apply IH. exact H.
Qed.

Lemma pencil_info_slices (bases : list basis) (start shape idx : list nat) :
  length bases = S (length shape) -> length idx = length shape ->
  length shape <= length start ->
  exists dts, pencil_info bases start idx = Some (index_slices idx ++ [SliceAll], dts).
Proof.
  intros Hb Hi Hs. unfold pencil_info.
  assert (Hlen : length (take (length bases - 1) bases) = length shape)
    by (rewrite length_take; lia).
  destruct (pencil_info_loop_slices start idx (take (length bases - 1) bases) 0)
    as [dts E]; [lia | lia |].
  rewrite E. simpl. rewrite Hlen, drop_0, take_ge by lia. eexists. reflexivity.
Qed.

(** C9. For a domain with one basis per axis, [_construct_pencil_info]
    returns one pencil per transverse index tuple.  Pencil [p]'s slice list
    fixes one index per transverse axis ([slice(i, i+1)]) and takes the
    whole last axis; the fixed indices are in range and are the row-major
    digits of [p] (last axis fastest); two distinct pencils have distinct
    index tuples, select no common buffer cell, and a write through the
    view of one leaves the view of the other as it was. *)
Theorem pencil_views_disjoint (bases : list basis) (start shape : list nat) :
  length bases = S (length shape) -> length shape <= length start ->
  exists infos,
    construct_pencil_info bases start shape = Some infos
    /\ length infos = prod shape
    /\ forall p sl dt, infos !! p = Some (sl, dt) ->
         sl = index_slices (pencil_index shape p) ++ [SliceAll]
         /\ Forall2 lt (pencil_index shape p) shape
         /\ ravel shape (pencil_index shape p) = p
         /\ forall q sl' dt', infos !! q = Some (sl', dt') -> p <> q ->
              pencil_index shape p <> pencil_index shape q
              /\ (forall cell, selects sl cell = true -> selects sl' cell = false)
              /\ (forall a vals, trans_shape a = shape ->
                    view (view_write a sl vals) sl' = view a sl').
Proof.
  intros Hb Hs. unfold construct_pencil_info.
  rewrite (index_list_rowmajor _ shape Hb).
  assert (Hdef : is_Some (mapM (pencil_info bases start)
                            (map (pencil_index shape) (seq 0 (prod shape))))).
  { apply mapM_is_Some. apply Forall_forall. intros idx Hin.
    apply list_elem_of_fmap in Hin as [p [-> _]].
    destruct (pencil_info_slices bases start shape (pencil_index shape p))
      as [dts E]; [exact Hb | apply length_pencil_index | exact Hs |].
    simpl. rewrite E. eexists. reflexivity. }
  destruct Hdef as [infos Hinfos]. exists infos. split; [exact Hinfos|].
  apply mapM_Some_1 in Hinfos.
  assert (Hlen : length infos = prod shape).
  { apply Forall2_length in Hinfos. rewrite length_map, length_seq in Hinfos. lia. }
  split; [exact Hlen|].
  assert (Hsl : forall p sl dt, infos !! p = Some (sl, dt) ->
            p < prod shape /\ sl = index_slices (pencil_index shape p) ++ [SliceAll]).
  { intros p sl dt Hp.
    assert (Hlt : p < prod shape) by (apply lookup_lt_Some in Hp; lia).
    split; [exact Hlt|].
    pose proof (Forall2_lookup_lr _ _ _ p (pencil_index shape p) (sl, dt) Hinfos) as H.
    rewrite list_lookup_fmap, lookup_seq_lt in H by exact Hlt.
    specialize (H eq_refl Hp).
    destruct (pencil_info_slices bases start shape (pencil_index shape p))
      as [dts E]; [exact Hb | apply length_pencil_index | exact Hs |].
    rewrite E in H. congruence. }
  intros p sl dt Hp. destruct (Hsl p sl dt Hp) as [Hlt ->].
  split; [reflexivity|]. split; [apply pencil_index_bounds; exact Hlt|].
  split; [apply ravel_pencil_index; exact Hlt|].
  intros q sl' dt' Hq Hne. destruct (Hsl q sl' dt' Hq) as [Hltq ->].
  assert (Hidx : pencil_index shape p <> pencil_index shape q).
  { intros Heq. apply Hne.
    rewrite <- (ravel_pencil_index shape p Hlt), <- (ravel_pencil_index shape q Hltq).
    rewrite Heq. reflexivity. }
  split; [exact Hidx|]. split.
  - intros cell Hc.
    destruct (selects (index_slices (pencil_index shape q) ++ [SliceAll]) cell)
      eqn:Hc'; [|reflexivity].
    exfalso. apply Hidx.
    apply selects_index_slices in Hc, Hc'.
    rewrite length_pencil_index in Hc, Hc'. congruence.
  - intros a vals Ha. unfold view, view_write. simpl.
    rewrite !fixed_index_slices, Ha.
    rewrite !ravel_pencil_index by assumption.
    apply list_lookup_insert_ne. exact Hne.
Qed.

Lemma pencil_views_disjoint_witness :
  exists infos,
    construct_pencil_info
      [ {| trans_diff := Z.of_nat |}; {| trans_diff := Z.of_nat |};
        {| trans_diff := Z.of_nat |} ] [0; 0; 0] [2; 3] = Some infos
    /\ length infos = 6
    /\ infos !! 4 = Some ([Slice 1 2; Slice 1 2; SliceAll], [1; 1]%Z).
Proof.
  destruct (pencil_views_disjoint
              [ {| trans_diff := Z.of_nat |}; {| trans_diff := Z.of_nat |};
                {| trans_diff := Z.of_nat |} ] [0; 0; 0] [2; 3])
    as (infos & Hc & Hl & _); [reflexivity | simpl; lia |].
  exists infos. split; [exact Hc|]. split; [exact Hl|].
  vm_compute in Hc. injection Hc as <-. reflexivity.
Defined.

(** ** Further properties of the pencil construction *)

Lemma construct_pencil_info_defined (bases : list basis) (start shape : list nat) :
  length bases = S (length shape) -> length shape <= length start ->
  exists infos, construct_pencil_info bases start shape = Some infos.
Proof.
  intros Hb Hs. unfold construct_pencil_info.
  rewrite (index_list_rowmajor _ shape Hb).
  apply mapM_is_Some. apply Forall_forall. intros idx Hin.
  apply list_elem_of_fmap in Hin as [p [-> _]].
  destruct (pencil_info_slices bases start shape (pencil_index shape p))
    as [dts E]; [exact Hb | apply length_pencil_index | exact Hs |].
  simpl. rewrite E. eexists. reflexivity.
Qed.

Lemma construct_pencil_info_lookup (bases : list basis) (start shape : list nat)
    (infos : list (list pyslice * list Z)) :
  length bases = S (length shape) ->
  construct_pencil_info bases start shape = Some infos ->
  length infos = prod shape
  /\ forall p, p < prod shape ->
       exists info, infos !! p = Some info
                    /\ pencil_info bases start (pencil_index shape p) = Some info.
Proof.
  intros Hb Hc. unfold construct_pencil_info in Hc.
  rewrite (index_list_rowmajor _ shape Hb) in Hc.
  apply mapM_Some_1 in Hc.
  assert (Hlen : length infos = prod shape).
  { apply Forall2_length in Hc. rewrite length_map, length_seq in Hc. lia. }
  split; [exact Hlen|]. intros p Hp.
  destruct (lookup_lt_is_Some_2 infos p ltac:(lia)) as [info Hinfo].
  exists info. split; [exact Hinfo|].
  pose proof (Forall2_lookup_lr _ _ _ p (pencil_index shape p) info Hc) as H.
  rewrite list_lookup_fmap, lookup_seq_lt in H by exact Hp.
  apply H; [reflexivity | exact Hinfo].
Qed.

(** Unravelling the row-major offset of an in-range index gives the index
    back. *)
Lemma divmod_loop_ravel (rs : list nat) :
  forall ridx, Forall2 lt ridx rs ->
    divmod_loop rs (ravel (reverse rs) (reverse ridx)) = ridx
    /\ ravel (reverse rs) (reverse ridx) < prod rs.
Proof.
  induction rs as [|s rs IH]; intros ridx H.
  - inversion H; subst. unfold ravel, prod. simpl. split; [reflexivity | lia].
  - inversion H as [|i s' ridx' rs' His Hrest]; subst.
    destruct (IH ridx' Hrest) as [IH1 IH2].
    pose proof (Forall2_length _ _ _ Hrest) as Hlen.
    rewrite !reverse_cons, ravel_snoc by (rewrite !length_reverse; lia).
    change (prod (s :: rs)) with (s * prod rs).
    set (q := ravel (reverse rs) (reverse ridx')) in *.
    simpl. split; [|nia].
    replace (q * s + i) with (i + q * s) by lia.
    rewrite Nat.Div0.mod_add, Nat.mod_small by lia.
    rewrite Nat.div_add by lia. rewrite Nat.div_small by lia. simpl.
    rewrite IH1. reflexivity.
Qed.

Lemma pencil_index_ravel (shape idx : list nat) :
  Forall2 lt idx shape ->
  pencil_index shape (ravel shape idx) = idx /\ ravel shape idx < prod shape.
Proof.
  intros H. unfold pencil_index.
  destruct (divmod_loop_ravel (reverse shape) (reverse idx)) as [H1 H2];
    [apply Forall2_reverse; exact H|].
  rewrite !reverse_involutive in H1, H2. rewrite prod_reverse in H2.
  rewrite H1, reverse_involutive. split; [reflexivity | exact H2].
Qed.

Lemma selects_own_index (idx : list nat) (c : nat) :
  selects (index_slices idx ++ [SliceAll]) (idx ++ [c]) = true.
Proof.
  induction idx as [|i idx IH]; simpl; [reflexivity|].
  rewrite IH, andb_true_r. apply andb_true_iff.
  split; [apply Nat.leb_le | apply Nat.ltb_lt]; lia.
Qed.

(** X1. The pencils cover the buffer: every cell whose transverse index is
    in range lies in the slice of the pencil numbered by the row-major
    offset of that index, and in the slice of no other pencil. *)
Theorem every_cell_in_exactly_one_pencil
    (bases : list basis) (start shape idx : list nat) (c : nat)
    (infos : list (list pyslice * list Z)) :
  length bases = S (length shape) ->
  construct_pencil_info bases start shape = Some infos ->
  Forall2 lt idx shape ->
  exists sl dt,
    infos !! ravel shape idx = Some (sl, dt)
    /\ selects sl (idx ++ [c]) = true
    /\ forall q sl' dt', infos !! q = Some (sl', dt') ->
         selects sl' (idx ++ [c]) = true -> q = ravel shape idx.
Proof.
  intros Hb Hc Hidx.
  destruct (construct_pencil_info_lookup _ _ _ _ Hb Hc) as [Hlen Hlook].
  destruct (pencil_index_ravel shape idx Hidx) as [Hpi Hlt].
  assert (Hform : forall q info, infos !! q = Some info ->
            info.1 = index_slices (pencil_index shape q) ++ [SliceAll]).
  { intros q info Hq.
    assert (Hq' : q < prod shape) by (apply lookup_lt_Some in Hq; lia).
    destruct (Hlook q Hq') as (info' & Hi' & Hpinfo).
    assert (info' = info) as -> by congruence.
    unfold pencil_info in Hpinfo.
    destruct (pencil_info_loop 0 (take (length bases - 1) bases) start
                (pencil_index shape q)) as [[s d]|] eqn:E; [|discriminate].
    injection Hpinfo as <-. simpl.
    assert (Hs : length (take (length bases - 1) bases) <= length start
                 \/ length start < length (take (length bases - 1) bases)) by lia.
    assert (Hsl : s = index_slices (pencil_index shape q)).
    { clear -E Hb.
      assert (Hl : length (take (length bases - 1) bases)
                   = length (pencil_index shape q))
        by (rewrite length_take, length_pencil_index; lia).
      revert E Hl. generalize (take (length bases - 1) bases) as bs.
      generalize (pencil_index shape q) as ix. intros ix bs.
      rewrite <- (drop_0 ix) at 2 3. generalize 0 as n.
      revert s d. induction bs as [|b bs IH]; intros s d n E Hl; simpl in *.
      - injection E as <- <-. destruct (drop n ix); [reflexivity | discriminate].
      - destruct (ix !! n) as [i|] eqn:Ei; [|discriminate]. simpl in E.
        destruct (start !! n) as [st|]; [|discriminate]. simpl in E.
        destruct (pencil_info_loop (S n) bs start ix) as [[s' d']|] eqn:E';
          [|discriminate]. simpl in E. injection E as <- <-.
        rewrite (drop_S ix i n Ei) in Hl |- *. simpl in Hl.
        simpl. f_equal. eapply IH; [exact E' | lia]. }
    rewrite Hsl. reflexivity. }
  destruct (Hlook _ Hlt) as ([sl dt] & Hp & _).
  pose proof (Hform _ _ Hp) as Hsl. simpl in Hsl. rewrite Hpi in Hsl. subst sl.
  exists (index_slices idx ++ [SliceAll]), dt.
  split; [exact Hp|]. split; [apply selects_own_index|].
  intros q sl' dt' Hq Hsel.
  pose proof (Hform _ _ Hq) as Hsl'. simpl in Hsl'. subst sl'.
  apply selects_index_slices in Hsel.
  rewrite length_pencil_index in Hsel.
  assert (Hq' : q < prod shape) by (apply lookup_lt_Some in Hq; lia).
  rewrite <- (ravel_pencil_index shape q Hq'), <- Hsel.
  rewrite <- (Forall2_length _ _ _ Hidx), take_app_length. reflexivity.
Qed.

Lemma every_cell_in_exactly_one_pencil_witness :
  exists infos sl dt,
    construct_pencil_info
      [ {| trans_diff := Z.of_nat |}; {| trans_diff := Z.of_nat |};
        {| trans_diff := Z.of_nat |} ] [0; 0; 0] [2; 3] = Some infos
    /\ infos !! 5 = Some (sl, dt)
    /\ selects sl [1; 2; 7] = true.
Proof.
  eexists.
  destruct (every_cell_in_exactly_one_pencil
              [ {| trans_diff := Z.of_nat |}; {| trans_diff := Z.of_nat |};
                {| trans_diff := Z.of_nat |} ] [0; 0; 0] [2; 3] [1; 2] 7 _
              eq_refl eq_refl) as (sl & dt & H1 & H2 & _).
  - repeat constructor.
  - exists sl, dt. split; [reflexivity|]. split; [exact H1 | exact H2].
Defined.

Lemma pencil_info_loop_dtrans (start idx : list nat) :
  forall (bs : list basis) (n : nat) (sl : list pyslice) (dts : list Z),
    pencil_info_loop n bs start idx = Some (sl, dts) ->
    length dts = length bs
    /\ forall k b, bs !! k = Some b ->
         exists i st, idx !! (n + k) = Some i /\ start !! (n + k) = Some st
                      /\ dts !! k = Some (trans_diff b (st + i)).
Proof.
  induction bs as [|b bs IH]; intros n sl dts E; simpl in E.
  - injection E as <- <-. split; [reflexivity|]. intros k b. discriminate.
  - destruct (idx !! n) as [i|] eqn:Ei; [|discriminate]. simpl in E.
    destruct (start !! n) as [st|] eqn:Est; [|discriminate]. simpl in E.
    destruct (pencil_info_loop (S n) bs start idx) as [[s' d']|] eqn:E';
      [|discriminate]. simpl in E. injection E as <- <-.
    destruct (IH _ _ _ E') as [Hlen Hk]. split; [simpl; lia|].
    intros k b' Hb'. destruct k as [|k]; simpl in Hb'.
    + injection Hb' as <-. exists i, st. rewrite Nat.add_0_r. auto.
    + destruct (Hk k b' Hb') as (i' & st' & H1 & H2 & H3).
      exists i', st'. replace (n + S k) with (S n + k) by lia. auto.
Qed.

(** X2. The transverse constants of pencil [p]: one per transverse axis,
    the one of axis [k] being that basis's [trans_diff] at the global
    index [start[k] + i], where [i] is the pencil's index along the axis. *)
Theorem pencil_dtrans_entries
    (bases : list basis) (start shape : list nat)
    (infos : list (list pyslice * list Z)) (p : nat) (sl : list pyslice) (dt : list Z) :
  length bases = S (length shape) ->
  construct_pencil_info bases start shape = Some infos ->
  infos !! p = Some (sl, dt) ->
  length dt = length shape
  /\ forall k b, k < length shape -> bases !! k = Some b ->
       exists i st, pencil_index shape p !! k = Some i /\ start !! k = Some st
                    /\ dt !! k = Some (trans_diff b (st + i)).
Proof.
  intros Hb Hc Hp.
  destruct (construct_pencil_info_lookup _ _ _ _ Hb Hc) as [Hlen Hlook].
  assert (Hp' : p < prod shape) by (apply lookup_lt_Some in Hp; lia).
  destruct (Hlook p Hp') as (info & Hi & Hpinfo).
  assert (info = (sl, dt)) as -> by congruence.
  unfold pencil_info in Hpinfo.
  destruct (pencil_info_loop 0 (take (length bases - 1) bases) start
              (pencil_index shape p)) as [[s d]|] eqn:E; [|discriminate].
  injection Hpinfo as _ <-.
  destruct (pencil_info_loop_dtrans _ _ _ _ _ _ E) as [Hl Hk].
  split; [rewrite Hl, length_take; lia|].
  intros k b Hlt Hbk. apply (Hk k b).
  rewrite lookup_take_lt by lia. exact Hbk.
Qed.

Lemma pencil_dtrans_entries_witness :
  exists infos,
    construct_pencil_info
      [ {| trans_diff := fun g => (10 * Z.of_nat g)%Z |}; {| trans_diff := Z.of_nat |} ]
      [4; 0] [3] = Some infos
    /\ infos !! 2 = Some ([Slice 2 3; SliceAll], [60]%Z).
Proof.
  eexists. split; [reflexivity|].
  destruct (pencil_dtrans_entries
              [ {| trans_diff := fun g => (10 * Z.of_nat g)%Z |}; {| trans_diff := Z.of_nat |} ]
              [4; 0] [3] _ 2 [Slice 2 3; SliceAll] [60]%Z
              eq_refl eq_refl eq_refl) as [_ _].
  reflexivity.
Defined.

(** X7. In a freshly built pencil set the buffer has one row per
    transverse index tuple, each [stride * n_fields] wide, and the data
    view of every pencil is a row of zeros of that width. *)
Theorem fresh_pencil_views_are_zero
    (bases : list basis) (start shape : list nat) (last n : nat)
    (infos : list (list pyslice * list Z)) (p : nat) (sl : list pyslice) (dt : list Z) :
  length bases = S (length shape) ->
  construct_pencil_info bases start shape = Some infos ->
  infos !! p = Some (sl, dt) ->
  stride (init shape last n) = last
  /\ length (rows (buffer (init shape last n))) = length infos
  /\ width (last * n) (rows (buffer (init shape last n)))
  /\ view (buffer (init shape last n)) sl = Some (replicate (last * n) 0%Z).
Proof.
  intros Hb Hc Hp.
  destruct (construct_pencil_info_lookup _ _ _ _ Hb Hc) as [Hlen Hlook].
  assert (Hp' : p < prod shape) by (apply lookup_lt_Some in Hp; lia).
  split; [reflexivity|]. split; [simpl; rewrite length_replicate; exact (eq_sym Hlen)|].
  split.
  { unfold width. simpl. apply Forall_forall. intros r Hr.
    apply elem_of_replicate in Hr as [-> _]. apply length_replicate. }
  destruct (Hlook p Hp') as (info & Hi & Hpinfo).
  assert (info = (sl, dt)) as -> by congruence.
  destruct (pencil_info_slices bases start shape (pencil_index shape p))
    as [dts E]; [exact Hb | apply length_pencil_index | |].
  { (* the start offsets reach every transverse axis, or the loop had failed *)
    unfold pencil_info in Hpinfo.
    destruct (pencil_info_loop 0 (take (length bases - 1) bases) start
                (pencil_index shape p)) as [[s d]|] eqn:E; [|discriminate].
    destruct (pencil_info_loop_dtrans _ _ _ _ _ _ E) as [_ Hk].
    destruct (decide (length shape <= length start)) as [|Hgt]; [assumption|].
    exfalso.
    destruct (lookup_lt_is_Some_2 (take (length bases - 1) bases) (length start))
      as [b Hbk]; [rewrite length_take; lia|].
    destruct (Hk _ _ Hbk) as (i & st & _ & Hst & _). simpl in Hst.
    apply lookup_lt_Some in Hst. lia. }
  rewrite E in Hpinfo. injection Hpinfo as <- _.
  unfold view. simpl. rewrite fixed_index_slices, ravel_pencil_index by exact Hp'.
  apply lookup_replicate_2. exact Hp'.
Qed.

Lemma fresh_pencil_views_are_zero_witness :
  exists infos sl dt,
    construct_pencil_info
      [ {| trans_diff := Z.of_nat |}; {| trans_diff := Z.of_nat |} ] [0; 0] [3]
    = Some infos
    /\ infos !! 1 = Some (sl, dt)
    /\ view (buffer (init [3] 2 2)) sl = Some [0; 0; 0; 0]%Z.
Proof.
  eexists _, _, _. split; [reflexivity|]. split; [reflexivity|].
  apply (fresh_pencil_views_are_zero
           [ {| trans_diff := Z.of_nat |}; {| trans_diff := Z.of_nat |} ] [0; 0] [3]
           2 2 _ 1 _ _ eq_refl eq_refl eq_refl).
Defined.

(** ** The interleaved slices make up the whole row *)

Lemma getslice_lookup_lt (start step : nat) (row : list Z) (k : nat) :
  0 < step -> k < slice_count start step (length row) ->
  getslice start step row !! k = row !! (start + k * step).
Proof.
  intros Hs Hk. unfold getslice. rewrite omap_total_lookup.
  - unfold slice_indices. rewrite list_lookup_fmap, lookup_seq_lt by exact Hk.
    reflexivity.
  - intros j Hj. apply list_elem_of_lookup in Hj as [k' Hk'].
    apply slice_indices_lookup in Hk' as [-> Hk'].
    apply lookup_lt_is_Some. apply slice_count_bound; assumption.
Qed.

Lemma slices_determine_row (n w : nat) (row row' : list Z) :
  0 < n -> length row = w * n -> length row' = w * n ->
  (forall i, i < n -> getslice i n row = getslice i n row') ->
  row = row'.
Proof.
  intros Hn Hl Hl' H. apply list_eq. intros j.
  destruct (decide (j < w * n)) as [Hj|Hj].
  - pose proof (Nat.div_mod_eq j n) as Hdm.
    pose proof (Nat.mod_upper_bound j n ltac:(lia)) as Hm.
    assert (Hk : j / n < w).
    { apply Nat.Div0.div_lt_upper_bound. lia. }
    replace j with (j mod n + (j / n) * n) by lia.
    rewrite <- (getslice_lookup_lt (j mod n) n row (j / n)) by
      (try lia; rewrite Hl, slice_count_interleaved; assumption).
    rewrite <- (getslice_lookup_lt (j mod n) n row' (j / n)) by
      (try lia; rewrite Hl', slice_count_interleaved; assumption).
    rewrite (H (j mod n) Hm). reflexivity.
  - rewrite !lookup_ge_None_2 by lia. reflexivity.
Qed.

Lemma slices_determine_rows (n w : nat) :
  0 < n ->
  forall a a' : list (list Z),
    length a = length a' -> width (w * n) a -> width (w * n) a' ->
    (forall i, i < n -> slice_rows i n a = slice_rows i n a') ->
    a = a'.
Proof.
  intros Hn. induction a as [|row a IH]; intros a' Hlen Hw Hw' H.
  - destruct a'; [reflexivity | discriminate].
  - destruct a' as [|row' a']; [discriminate|].
    apply Forall_cons in Hw as [Hr Hw]. apply Forall_cons in Hw' as [Hr' Hw'].
    f_equal.
    + apply (slices_determine_row n w); auto.
      intros i Hi. specialize (H i Hi). simpl in H. congruence.
    + apply IH; auto. intros i Hi. specialize (H i Hi). simpl in H. congruence.
Qed.

(** X3. [get_system] overwrites the whole buffer: over two buffers of the
    same shape it leaves the same contents and the same fields, whatever
    the buffers held before. *)
Theorem get_system_overwrites_buffer
    (to_coeff : list (list Z) -> list (list Z))
    (ps1 ps2 ps1' ps2' : pencilset) (sys sys1 sys2 : system) (w : nat) :
  n_fields sys = length (fields sys) -> 0 < n_fields sys ->
  width (w * n_fields sys) (rows (buffer ps1)) ->
  width (w * n_fields sys) (rows (buffer ps2)) ->
  get_system to_coeff ps1 sys = Some (ps1', sys1) ->
  get_system to_coeff ps2 sys = Some (ps2', sys2) ->
  rows (buffer ps1') = rows (buffer ps2') /\ sys1 = sys2.
Proof.
  intros Hn Hpos Hw1 Hw2 H1 H2. unfold get_system in H1, H2.
  destruct (get_loop to_coeff (n_fields sys) 0 (fields sys) (rows (buffer ps1)))
    as [[b1 f1]|] eqn:E1; [|discriminate].
  destruct (get_loop to_coeff (n_fields sys) 0 (fields sys) (rows (buffer ps2)))
    as [[b2 f2]|] eqn:E2; [|discriminate].
  injection H1 as <- <-. injection H2 as <- <-. simpl.
  destruct (get_loop_slices to_coeff _ Hpos _ _ _ _ _ E1)
    as (Hf1 & Hl1 & Hwd1 & _ & Hm1); [lia|].
  destruct (get_loop_slices to_coeff _ Hpos _ _ _ _ _ E2)
    as (Hf2 & Hl2 & Hwd2 & _ & Hm2); [lia|].
  split; [|congruence].
  assert (Hsl : forall i, i < n_fields sys ->
            slice_rows i (n_fields sys) b1 = slice_rows i (n_fields sys) b2).
  { intros i Hi.
    destruct (lookup_lt_is_Some_2 f1 i) as [f Hf];
      [rewrite Hf1, length_map; lia|].
    pose proof (Hm1 i f Hf) as Ha. assert (Hf' : f2 !! i = Some f) by congruence.
    pose proof (Hm2 i f Hf') as Hb. simpl in Ha, Hb. congruence. }
  apply (slices_determine_rows (n_fields sys) w Hpos); auto.
  pose proof (Hsl 0 Hpos) as H0. apply (f_equal length) in H0.
  unfold slice_rows in H0. rewrite !length_map in H0. exact H0.
Qed.

Lemma get_system_overwrites_buffer_witness :
  let sys := {| fields := [ {| coeff_space := true; data := [[10; 11]%Z] |};
                            {| coeff_space := true; data := [[20; 21]%Z] |} ];
                n_fields := 2 |} in
  let dirty := {| stride := 2;
                  buffer := {| trans_shape := [1]; rows := [[7; 7; 7; 7]%Z] |} |} in
  exists ps1' ps2' sys',
    get_system (fun d => d) (init [1] 2 2) sys = Some (ps1', sys')
    /\ get_system (fun d => d) dirty sys = Some (ps2', sys')
    /\ rows (buffer ps1') = rows (buffer ps2').
Proof.
  intros sys dirty. eexists _, _, _.
  split; [reflexivity|]. split; [reflexivity|].
  apply (get_system_overwrites_buffer (fun d => d) (init [1] 2 2) dirty _ _ sys _ _ 2
           eq_refl ltac:(simpl; lia) ltac:(repeat constructor)
           ltac:(repeat constructor) eq_refl eq_refl).
Defined.

(** X4. The round trip in the other direction: when [set_system] has
    filled the fields from a buffer of the set's shape, [get_system] on
    those fields succeeds and leaves the pencil set exactly as it was. *)
Theorem set_system_get_system_roundtrip
    (to_coeff : list (list Z) -> list (list Z))
    (ps : pencilset) (sys sys' : system) :
  n_fields sys = length (fields sys) ->
  width (stride ps * n_fields sys) (rows (buffer ps)) ->
  set_system ps sys = Some sys' ->
  get_system to_coeff ps sys' = Some (ps, sys').
Proof.
  intros Hn Hw Hset. unfold set_system in Hset.
  destruct (set_loop (n_fields sys) 0 (fields sys) (rows (buffer ps)))
    as [fs'|] eqn:E; [|discriminate].
  injection Hset as <-. unfold get_system. simpl.
  destruct (Nat.eq_dec (n_fields sys) 0) as [Hz|Hnz].
  { destruct (fields sys) eqn:Ef; [|simpl in Hn; lia].
    simpl in E. injection E as <-. simpl.
    destruct ps as [st [ts rs]]. reflexivity. }
  assert (Hpos : 0 < n_fields sys) by lia.
  destruct (set_loop_slices _ Hpos _ _ _ _ E) as [Hlen Hr].
  assert (Hcoeff : map (require_coeff_space to_coeff) fs' = fs').
  { apply list_eq. intros k. rewrite list_lookup_fmap.
    destruct (fs' !! k) as [f|] eqn:Ek; [|reflexivity]. simpl.
    destruct (Hr k f Ek) as [Hc _]. unfold require_coeff_space. rewrite Hc.
    reflexivity. }
  destruct (get_loop_defined to_coeff _ Hpos (stride ps) fs' 0 (rows (buffer ps)))
    as [[b1 f1] E1]; [lia | exact Hw | |].
  { apply Forall_lookup. intros k f Ek.
    destruct (Hr k f Ek) as [Hc Hd]. unfold require_coeff_space. rewrite Hc, Hd.
    unfold slice_rows. rewrite length_map. split; [reflexivity|].
    unfold width. apply Forall_fmap. eapply Forall_impl; [exact Hw|].
    simpl. intros row Hrow. unfold getslice.
    assert (Hk : k < n_fields sys) by (apply lookup_lt_Some in Ek; lia).
    assert (Hlen' : forall idx : list nat,
              (forall j, j ∈ idx -> j < length row) ->
              length (omap (fun j => row !! j) idx) = length idx).
    { induction idx as [|j idx IH]; intros Hj; [reflexivity|]. simpl.
      destruct (lookup_lt_is_Some_2 row j) as [v Hv]; [apply Hj; left|].
      rewrite Hv. simpl. f_equal. apply IH. intros j' Hj'. apply Hj. right.
      exact Hj'. }
    rewrite Hlen'.
    - unfold slice_indices. rewrite length_map, length_seq, Hrow.
      apply slice_count_interleaved. simpl. lia.
    - intros j Hj. apply list_elem_of_lookup in Hj as [k' Hk'].
      apply slice_indices_lookup in Hk' as [-> Hk'].
      apply slice_count_bound; [lia | exact Hk']. }
  rewrite E1. simpl.
  destruct (get_loop_slices to_coeff _ Hpos _ _ _ _ _ E1)
    as (Hf1 & Hl1 & Hwd1 & _ & Hm1); [lia|].
  rewrite Hcoeff in Hf1. subst f1.
  assert (Hb : b1 = rows (buffer ps)).
  { apply (slices_determine_rows (n_fields sys) (stride ps) Hpos); auto.
    intros i Hi.
    destruct (lookup_lt_is_Some_2 fs' i) as [f Hf]; [lia|].
    pose proof (Hm1 i f Hf) as Ha. destruct (Hr i f Hf) as [_ Hd].
    simpl in Ha, Hd. congruence. }
  rewrite Hb. destruct ps as [st [ts rs]]. reflexivity.
Qed.

Lemma set_system_get_system_roundtrip_witness :
  let ps := {| stride := 2;
               buffer := {| trans_shape := [1]; rows := [[1; 2; 3; 4]%Z] |} |} in
  let sys := {| fields := [ {| coeff_space := false; data := [[0; 0]%Z] |};
                            {| coeff_space := true; data := [[0; 0]%Z] |} ];
                n_fields := 2 |} in
  exists sys', set_system ps sys = Some sys'
               /\ get_system (fun d => d) ps sys' = Some (ps, sys').
Proof.
  intros ps sys. eexists. split; [reflexivity|].
  apply (set_system_get_system_roundtrip (fun d => d) ps sys _ eq_refl
           ltac:(repeat constructor) eq_refl).
Defined.

(** X22. What a pencil sees after [get_system]: the data view of pencil
    [p] is row [p] of the buffer, and it holds the fields' coefficients of
    that transverse index interleaved, coefficient [k] of field [i] at
    position [i + k * n_fields]. *)
Theorem pencil_view_after_get_system
    (to_coeff : list (list Z) -> list (list Z))
    (bases : list basis) (start shape : list nat)
    (infos : list (list pyslice * list Z))
    (ps ps' : pencilset) (sys sys' : system)
    (p i k : nat) (sl : list pyslice) (dt : list Z) (f : field)
    (vals : list Z) (v : Z) :
  length bases = S (length shape) ->
  construct_pencil_info bases start shape = Some infos ->
  trans_shape (buffer ps) = shape ->
  n_fields sys = length (fields sys) ->
  get_system to_coeff ps sys = Some (ps', sys') ->
  infos !! p = Some (sl, dt) ->
  fields sys' !! i = Some f ->
  data f !! p = Some vals -> vals !! k = Some v ->
  exists row,
    view (buffer ps') sl = Some row
    /\ rows (buffer ps') !! p = Some row
    /\ row !! (i + k * n_fields sys) = Some v.
Proof.
  intros Hb Hc Hshape Hn Hget Hp Hf Hvals Hv.
  destruct (construct_pencil_info_lookup _ _ _ _ Hb Hc) as [Hlen Hlook].
  assert (Hp' : p < prod shape) by (apply lookup_lt_Some in Hp; lia).
  unfold get_system in Hget.
  destruct (get_loop to_coeff (n_fields sys) 0 (fields sys) (rows (buffer ps)))
    as [[buf' fs']|] eqn:E; [|discriminate].
  injection Hget as <- <-. simpl in *.
  assert (Hpos : 0 < n_fields sys).
  { destruct (fields sys) as [|f0 fs0] eqn:Ef.
    - simpl in E. injection E as _ <-. discriminate.
    - simpl in Hn. lia. }
  destruct (get_loop_slices to_coeff _ Hpos _ _ _ _ _ E)
    as (_ & _ & _ & _ & Hmine); [lia|].
  pose proof (Hmine i f Hf) as Hslice. simpl in Hslice.
  assert (Hrow : exists row, buf' !! p = Some row).
  { apply lookup_lt_is_Some.
    apply (f_equal length) in Hslice. unfold slice_rows in Hslice.
    rewrite length_map in Hslice. apply lookup_lt_Some in Hvals. lia. }
  destruct Hrow as [row Hrow]. exists row.
  assert (Hsl : sl = index_slices (pencil_index shape p) ++ [SliceAll]).
  { destruct (Hlook p Hp') as (info & Hi & Hpinfo).
    assert (info = (sl, dt)) as -> by congruence.
    unfold pencil_info in Hpinfo.
    destruct (pencil_info_loop 0 (take (length bases - 1) bases) start
                (pencil_index shape p)) as [[s d]|] eqn:El; [|discriminate].
    injection Hpinfo as <- _.
    destruct (pencil_info_loop_dtrans _ _ _ _ _ _ El) as [_ Hk].
    assert (Hst : length shape <= length start).
    { destruct (decide (length shape <= length start)) as [|Hgt]; [assumption|].
      exfalso.
      destruct (lookup_lt_is_Some_2 (take (length bases - 1) bases) (length start))
        as [b0 Hbk]; [rewrite length_take; lia|].
      destruct (Hk _ _ Hbk) as (i0 & st & _ & Hst & _). simpl in Hst.
      apply lookup_lt_Some in Hst. lia. }
    destruct (pencil_info_slices bases start shape (pencil_index shape p))
      as [dts E']; [exact Hb | apply length_pencil_index | exact Hst |].
    unfold pencil_info in E'. rewrite El in E'. simpl in E'. congruence. }
  split; [|split; [exact Hrow|]].
  - unfold view. simpl. rewrite Hsl, fixed_index_slices, Hshape.
    rewrite ravel_pencil_index by exact Hp'. exact Hrow.
  - apply (slice_rows_occupies (n_fields sys) i buf' (data f) Hpos Hslice
             p k row vals v Hrow Hvals Hv).
Qed.

Lemma pencil_view_after_get_system_witness :
  let sys := {| fields := [ {| coeff_space := true; data := [[10; 11]; [12; 13]]%Z |};
                            {| coeff_space := true; data := [[20; 21]; [22; 23]]%Z |} ];
                n_fields := 2 |} in
  exists infos ps' sys' sl dt row,
    construct_pencil_info
      [ {| trans_diff := Z.of_nat |}; {| trans_diff := Z.of_nat |} ] [0; 0] [2]
    = Some infos
    /\ get_system (fun d => d) (init [2] 2 2) sys = Some (ps', sys')
    /\ infos !! 1 = Some (sl, dt)
    /\ view (buffer ps') sl = Some row
    /\ row !! 3 = Some 23%Z.
Proof.
  intros sys. eexists _, _, _, _, _.
  destruct (pencil_view_after_get_system (fun d => d)
              [ {| trans_diff := Z.of_nat |}; {| trans_diff := Z.of_nat |} ] [0; 0] [2]
              _ (init [2] 2 2) _ sys _ 1 1 1 _ _
              {| coeff_space := true; data := [[20; 21]; [22; 23]]%Z |}
              [22; 23]%Z 23%Z eq_refl eq_refl eq_refl eq_refl eq_refl eq_refl
              eq_refl eq_refl eq_refl) as (row & Hview & _ & Hrow).
  exists row. split; [reflexivity|]. split; [reflexivity|]. split; [reflexivity|].
  split; [exact Hview | exact Hrow].
Defined.

End PencilSet.

(* ===================================================================== *)
(** * 3. Pencil matrices ([Pencil.build_matrices]) *)
(* ===================================================================== *)

Module PencilMatrices.

(** A matrix by its shape and its entries.  SciPy's sparse formats differ
    in which entries they store; everything [build_matrices] does with a
    matrix (sums, products, Kronecker products, [nonzero()]) depends on
    the entry values only. *)
Record matrix := { nrows : nat; ncols : nat; entry : nat -> nat -> Z }.

(** [sum(f(k) for k in range(n))] *)
Fixpoint sum_upto (n : nat) (f : nat -> Z) : Z :=
  match n with
  | O => 0
  | S n' => sum_upto n' f + f n'
  end.

(** [sparse.csr_matrix((n, m))] *)
Definition zeros (n m : nat) : matrix :=
  {| nrows := n; ncols := m; entry := fun _ _ => 0 |}.

(** [sparse.eye(n)] *)
Definition eye (n : nat) : matrix :=
  {| nrows := n; ncols := n; entry := fun i j => if decide (i = j) then 1 else 0 |}.

(** [A[i, j] = v] *)
Definition set_entry (A : matrix) (i j : nat) (v : Z) : matrix :=
  {| nrows := nrows A; ncols := ncols A;
     entry := fun i' j' => if decide (i' = i /\ j' = j) then v else entry A i' j' |}.

(** [A + B]; SciPy raises on inconsistent shapes. *)
Definition add (A B : matrix) : option matrix :=
  if decide (nrows A = nrows B /\ ncols A = ncols B) then
    Some {| nrows := nrows A; ncols := ncols A;
            entry := fun i j => entry A i j + entry B i j |}
  else None.

(** [A * B] (matrix product of sparse matrices); raises on a dimension
    mismatch. *)
Definition mul (A B : matrix) : option matrix :=
  if decide (ncols A = nrows B) then
    Some {| nrows := nrows A; ncols := ncols B;
            entry := fun i j => sum_upto (ncols A) (fun k => entry A i k * entry B k j) |}
  else None.

(** [sparse.kron(A, B)] *)
Definition kron (A B : matrix) : matrix :=
  {| nrows := (nrows A * nrows B)%nat; ncols := (ncols A * ncols B)%nat;
     entry := fun i j =>
       entry A (i / nrows B)%nat (j / ncols B)%nat
       * entry B (i mod nrows B)%nat (j mod ncols B)%nat |}.

(** [np.any(A)] *)
Definition any (A : matrix) : bool :=
  existsb (fun i => existsb (fun j => negb (entry A i j =? 0)) (seq 0 (ncols A)))
          (seq 0 (nrows A)).

(** [A.nonzero()[0]]: the row index of every nonzero entry (row by row). *)
Definition nonzero_rows (A : matrix) : list nat :=
  flat_map (fun i => map (fun _ => i)
                       (filter (fun j => entry A i j <> 0) (seq 0 (ncols A))))
           (seq 0 (nrows A)).

(** The problem and basis objects, as [build_matrices] uses them.  The
    coefficient matrices are functions of the pencil's [d_trans]. *)
Record problem := {
  psize : nat;
  order : nat;
  M0 : nat -> list Z -> matrix;  M1 : nat -> list Z -> matrix;
  L0 : nat -> list Z -> matrix;  L1 : nat -> list Z -> matrix;
  ML : list Z -> matrix;  MR : list Z -> matrix;  MI : list Z -> matrix;
  LL : list Z -> matrix;  LR : list Z -> matrix;  LI : list Z -> matrix
}.

Record basis := {
  coeff_size : nat;
  Pre : matrix;  Diff : matrix;  Mult : nat -> matrix;
  Left : matrix;  Right : matrix;  Int : matrix
}.

(** What [build_matrices] stores on the pencil (the matrices and the
    boundary rows). *)
Record pencil := { LHS : matrix; M : matrix; L : matrix; bc_rows : gset nat }.

(** [X = X + sparse.kron(A, c)] *)
Definition add_kron (X : option matrix) (A c : matrix) : option matrix :=
  x ← X; add x (kron A c).

(** [if np.any(c): X = X + sparse.kron(sel, c)] *)
Definition add_bc (X : option matrix) (sel c : matrix) : option matrix :=
  if any c then add_kron X sel c else X.

(** One round of the loop [for i in range(problem.order)]. *)
Definition pde_step (p : problem) (b : basis) (D : list Z)
    (ml : matrix * matrix) (i : nat) : option (matrix * matrix) :=
  Pre_i ← mul (Pre b) (Mult b i);
  Diff_i ← mul (Pre b) (Mult b i) ≫= (fun t => mul t (Diff b));
  m ← add_kron (add_kron (Some ml.1) Pre_i (M0 p i D)) Diff_i (M1 p i D);
  l ← add_kron (add_kron (Some ml.2) Pre_i (L0 p i D)) Diff_i (L1 p i D);
  Some (m, l).

Definition pde_matrices (p : problem) (b : basis) (D : list Z) (size : nat)
  : option (matrix * matrix) :=
  foldl (fun acc i => acc ≫= (fun ml => pde_step p b D ml i))
        (Some (zeros size size, zeros size size)) (seq 0 (order p)).

(** [Mb] and [Lb] *)
Definition boundary_M (p : problem) (b : basis) (D : list Z) : option matrix :=
  let size := (psize p * coeff_size b)%nat in
  add_bc (add_bc (add_bc (Some (zeros size size)) (Left b) (ML p D))
                 (Right b) (MR p D)) (Int b) (MI p D).

Definition boundary_L (p : problem) (b : basis) (D : list Z) : option matrix :=
  let size := (psize p * coeff_size b)%nat in
  add_bc (add_bc (add_bc (Some (zeros size size)) (Left b) (LL p D))
                 (Right b) (LR p D)) (Int b) (LI p D).

(** [rows = set(Mb_rows).union(set(Lb_rows))] *)
Definition boundary_rows (Mb Lb : matrix) : gset nat :=
  list_to_set (nonzero_rows Mb) ∪ list_to_set (nonzero_rows Lb).

(** [clear_bc]: the identity with [clear_bc[i, i] = 0.] for [i in rows]. *)
Definition clear_bc (size : nat) (rows : gset nat) : matrix :=
  foldr (fun i C => set_entry C i i 0) (eye size) (elements rows).

(** ** Cleared rows *)

Lemma sum_upto_zero (n : nat) (f : nat -> Z) :
  (forall k, f k = 0) -> sum_upto n f = 0.
Proof.
  intros H. induction n as [|n IH]; simpl; [reflexivity|]. rewrite IH, H. reflexivity.
Qed.

Lemma clear_bc_entry (size : nat) (rows : gset nat) (r k : nat) :
  entry (clear_bc size rows) r k
  = if decide (r = k) then (if decide (r ∈ rows) then 0 else 1) else 0.
Proof.
  unfold clear_bc.
  assert (H : forall l : list nat,
             entry (foldr (fun i C => set_entry C i i 0) (eye size) l) r k
             = if decide (r = k) then (if decide (r ∈ l) then 0 else 1) else 0).
  { induction l as [|i l IH]; cbn [foldr set_entry entry eye].
    - destruct (decide (r = k)); [|reflexivity].
      rewrite decide_False by apply not_elem_of_nil. reflexivity.
    - rewrite IH. destruct (decide (r = i /\ k = i)) as [[-> ->]|Hne].
      + rewrite decide_True by reflexivity.
        rewrite decide_True by (apply elem_of_cons; left; reflexivity).
        reflexivity.
      + destruct (decide (r = k)) as [->|]; [|reflexivity].
        destruct (decide (k ∈ l)) as [Hin|Hnin].
        * rewrite decide_True by (apply elem_of_cons; right; exact Hin).
          reflexivity.
        * rewrite decide_False; [reflexivity|].
          intros Hin. apply elem_of_cons in Hin as [->|Hin]; [apply Hne|]; auto. }
  rewrite H. destruct (decide (r = k)); [|reflexivity].
  destruct (decide (r ∈ rows)) as [Hin|Hnin].
  - rewrite decide_True by (apply elem_of_elements; exact Hin). reflexivity.
  - rewrite decide_False by (rewrite elem_of_elements; exact Hnin). reflexivity.
Qed.

Lemma cleared_row (size : nat) (rows : gset nat) (A A' : matrix) (r c : nat) :
  r ∈ rows -> mul (clear_bc size rows) A = Some A' -> entry A' r c = 0.
Proof.
  intros Hr. unfold mul. case_decide; [|discriminate]. intros [= <-]. simpl.
  apply sum_upto_zero. intros k. rewrite clear_bc_entry.
  destruct (decide (r = k)); [|reflexivity].
  rewrite decide_True by exact Hr. reflexivity.
Qed.

Lemma add_entry (A B C : matrix) (i j : nat) :
  add A B = Some C -> entry C i j = entry A i j + entry B i j.
Proof.
  unfold add. case_decide; [|discriminate]. intros [= <-]. reflexivity.
Qed.

Section Build.

(** [tools.array.zeros_with_pattern] and [tools.array.expand_pattern]
    (not among the sources read here): they change which entries are
    stored, the second one keeping every value. *)
Variable zeros_with_pattern : matrix -> matrix -> matrix.
Variable expand_pattern : matrix -> matrix -> matrix.
Hypothesis expand_pattern_entry :
  forall A P i j, entry (expand_pattern A P) i j = entry A i j.

(** [Pencil.build_matrices] *)
Definition build_matrices (p : problem) (b : basis) (D : list Z) : option pencil :=
  let size := (psize p * coeff_size b)%nat in
  ml ← pde_matrices p b D size;
  Mb ← boundary_M p b D;
  Lb ← boundary_L p b D;
  let rows := boundary_rows Mb Lb in
  let clear := clear_bc size rows in
  m ← mul clear ml.1;
  l ← mul clear ml.2;
  m' ← add m Mb;
  l' ← add l Lb;
  let lhs := zeros_with_pattern m' l' in
  Some {| LHS := lhs; M := expand_pattern m' lhs; L := expand_pattern l' lhs;
          bc_rows := rows |}.

(** C1. When [build_matrices] completes, every row in the union of the
    nonzero rows of [Mb] and [Lb] is a recorded boundary row, and on each
    such row the stored [M] has exactly the entries of [Mb] and the stored
    [L] exactly those of [Lb]: nothing of the accumulated Kronecker
    products is left there. *)
Theorem boundary_rows_replace_pde_rows
    (p : problem) (b : basis) (D : list Z) (pen : pencil) (Mb Lb : matrix) :
  build_matrices p b D = Some pen ->
  boundary_M p b D = Some Mb ->
  boundary_L p b D = Some Lb ->
  forall r : nat,
    r ∈ nonzero_rows Mb \/ r ∈ nonzero_rows Lb ->
    r ∈ bc_rows pen
    /\ forall c : nat,
         entry (M pen) r c = entry Mb r c /\ entry (L pen) r c = entry Lb r c.
Proof using expand_pattern_entry.
  intros Hb HMb HLb r Hr. unfold build_matrices in Hb.
  rewrite HMb, HLb in Hb.
  destruct (pde_matrices p b D (psize p * coeff_size b)) as [[m0 l0]|];
    [|discriminate].
  cbn [mbind option_bind fst snd] in Hb.
  destruct (mul (clear_bc (psize p * coeff_size b) (boundary_rows Mb Lb)) m0)
    as [m|] eqn:Em; [|discriminate].
  cbn [mbind option_bind] in Hb.
  destruct (mul (clear_bc (psize p * coeff_size b) (boundary_rows Mb Lb)) l0)
    as [l|] eqn:El; [|discriminate].
  cbn [mbind option_bind] in Hb.
  destruct (add m Mb) as [m'|] eqn:Em'; [|discriminate].
  cbn [mbind option_bind] in Hb.
  destruct (add l Lb) as [l'|] eqn:El'; [|discriminate].
  cbn [mbind option_bind] in Hb. injection Hb as <-.
  assert (Hin : r ∈ boundary_rows Mb Lb).
  { unfold boundary_rows. apply elem_of_union.
    destruct Hr as [Hr|Hr]; [left|right]; apply elem_of_list_to_set; exact Hr. }
  split; [exact Hin|]. intros c. cbn [M L].
  rewrite !expand_pattern_entry.
  rewrite (add_entry _ _ _ r c Em'), (add_entry _ _ _ r c El').
  rewrite (cleared_row _ _ _ _ r c Hin Em), (cleared_row _ _ _ _ r c Hin El).
  split; reflexivity.
Qed.

End Build.

(** A small instance: one variable, two coefficients, first order, with a
    boundary condition on the last row of the stiffness matrix only. *)
Definition const_matrix (v : Z) : matrix :=
  {| nrows := 1; ncols := 1; entry := fun _ _ => v |}.

Definition example_problem : problem :=
  {| psize := 1; order := 1;
     M0 := fun _ _ => const_matrix 1;  M1 := fun _ _ => const_matrix 0;
     L0 := fun _ _ => const_matrix 2;  L1 := fun _ _ => const_matrix 3;
     ML := fun _ => const_matrix 0;  MR := fun _ => const_matrix 0;
     MI := fun _ => const_matrix 0;
     LL := fun _ => const_matrix 5;  LR := fun _ => const_matrix 0;
     LI := fun _ => const_matrix 0 |}.

Definition example_basis : basis :=
  {| coeff_size := 2;
     Pre := eye 2;
     Diff := {| nrows := 2; ncols := 2;
                entry := fun i j => if decide (i = 0%nat /\ j = 1%nat) then 1 else 0 |};
     Mult := fun _ => eye 2;
     Left := {| nrows := 2; ncols := 2;
                entry := fun i _ => if decide (i = 1%nat) then 1 else 0 |};
     Right := zeros 2 2;
     Int := zeros 2 2 |}.

Lemma boundary_rows_replace_pde_rows_witness :
  exists pen Mb Lb,
    build_matrices (fun A _ => zeros (nrows A) (ncols A)) (fun A _ => A)
                   example_problem example_basis [] = Some pen
    /\ boundary_M example_problem example_basis [] = Some Mb
    /\ boundary_L example_problem example_basis [] = Some Lb
    /\ 1%nat ∈ bc_rows pen
    /\ entry (M pen) 1 0 = entry Mb 1 0 /\ entry Mb 1 0 = 0
    /\ entry (L pen) 1 1 = entry Lb 1 1 /\ entry Lb 1 1 = 5.
Proof.
  eexists _, _, _.
  split; [reflexivity|]. split; [reflexivity|]. split; [reflexivity|].
  match goal with
  | |- _ ∈ bc_rows ?pen /\ entry _ _ _ = entry ?Mb _ _ /\ _
                        /\ entry _ _ _ = entry ?Lb _ _ /\ _ =>
      destruct (boundary_rows_replace_pde_rows
                  (fun A _ => zeros (nrows A) (ncols A)) (fun A _ => A)
                  (fun _ _ _ _ => eq_refl)
                  example_problem example_basis [] pen Mb Lb
                  eq_refl eq_refl eq_refl 1%nat) as [Hin Hrow]
  end.
  - right. apply list_elem_of_In. vm_compute. auto.
  - split; [exact Hin|].
    destruct (Hrow 0%nat) as [HM _]. destruct (Hrow 1%nat) as [_ HL].
    split; [exact HM|]. split; [reflexivity|]. split; [exact HL|]. reflexivity.
Defined.

(** ** Rows outside the boundary set, and the boundary set itself *)

Lemma nonzero_rows_spec (A : matrix) (r : nat) :
  r ∈ nonzero_rows A
  <-> (r < nrows A)%nat /\ exists c, (c < ncols A)%nat /\ entry A r c <> 0.
Proof.
  unfold nonzero_rows. rewrite list_elem_of_In, in_flat_map. split.
  - intros (i & Hi & Hr). apply in_seq in Hi.
    apply in_map_iff in Hr as (c & -> & Hc).
    apply list_elem_of_In, list_elem_of_filter in Hc as [Hne Hc].
    apply elem_of_seq in Hc. split; [lia|]. exists c. split; [lia | exact Hne].
  - intros (Hr & c & Hc & Hne). exists r. split; [apply in_seq; lia|].
    apply in_map_iff. exists c. split; [reflexivity|].
    apply list_elem_of_In, list_elem_of_filter. split; [exact Hne|].
    apply elem_of_seq. lia.
Qed.

Lemma sum_upto_zero_below (n : nat) (f : nat -> Z) :
  (forall k, (k < n)%nat -> f k = 0) -> sum_upto n f = 0.
Proof.
  induction n as [|n IH]; intros H; simpl; [reflexivity|].
  rewrite IH by (intros k Hk; apply H; lia). rewrite H by lia. reflexivity.
Qed.

Lemma sum_upto_delta (n r : nat) (g : nat -> Z) :
  (r < n)%nat ->
  sum_upto n (fun k => (if decide (r = k) then 1 else 0) * g k) = g r.
Proof.
  induction n as [|n IH]; intros Hr; [lia|]. simpl.
  destruct (decide (r = n)) as [->|Hne].
  - rewrite sum_upto_zero_below; [lia|]. intros k Hk.
    rewrite decide_False by lia. reflexivity.
  - rewrite IH by lia. lia.
Qed.

Lemma add_shape (A B C : matrix) :
  add A B = Some C ->
  nrows C = nrows A /\ ncols C = ncols A /\ nrows B = nrows A /\ ncols B = ncols A.
Proof.
  unfold add. case_decide as H; [|discriminate]. intros [= <-]. simpl.
  destruct H. auto.
Qed.

Lemma add_bc_shape (X : option matrix) (sel c A : matrix) (n m : nat) :
  (forall B, X = Some B -> nrows B = n /\ ncols B = m) ->
  add_bc X sel c = Some A -> nrows A = n /\ ncols A = m.
Proof.
  intros HX. unfold add_bc, add_kron. destruct (any c); [|apply HX].
  destruct X as [B|]; [|discriminate]. simpl. intros H.
  apply add_shape in H as (H1 & H2 & _). destruct (HX B eq_refl). lia.
Qed.

Lemma boundary_M_shape (p : problem) (b : basis) (D : list Z) (Mb : matrix) :
  boundary_M p b D = Some Mb ->
  nrows Mb = (psize p * coeff_size b)%nat /\ ncols Mb = (psize p * coeff_size b)%nat.
Proof.
  unfold boundary_M. intros H.
  eapply add_bc_shape; [|exact H]. intros B2 H2.
  eapply add_bc_shape; [|exact H2]. intros B1 H1.
  eapply add_bc_shape; [|exact H1]. intros B0 [= <-]. split; reflexivity.
Qed.

Lemma boundary_L_shape (p : problem) (b : basis) (D : list Z) (Lb : matrix) :
  boundary_L p b D = Some Lb ->
  nrows Lb = (psize p * coeff_size b)%nat /\ ncols Lb = (psize p * coeff_size b)%nat.
Proof.
  unfold boundary_L. intros H.
  eapply add_bc_shape; [|exact H]. intros B2 H2.
  eapply add_bc_shape; [|exact H2]. intros B1 H1.
  eapply add_bc_shape; [|exact H1]. intros B0 [= <-]. split; reflexivity.
Qed.

Lemma sum_upto_ext (n : nat) (f g : nat -> Z) :
  (forall k, (k < n)%nat -> f k = g k) -> sum_upto n f = sum_upto n g.
Proof.
  induction n as [|n IH]; intros H; simpl; [reflexivity|].
  rewrite IH by (intros k Hk; apply H; lia). rewrite H by lia. reflexivity.
Qed.

Lemma clear_bc_shape (size : nat) (rows : gset nat) :
  nrows (clear_bc size rows) = size /\ ncols (clear_bc size rows) = size.
Proof. unfold clear_bc. induction (elements rows); simpl; auto. Qed.

Lemma kept_row (size : nat) (rows : gset nat) (A A' : matrix) (r c : nat) :
  (r < size)%nat -> r ∉ rows ->
  mul (clear_bc size rows) A = Some A' -> entry A' r c = entry A r c.
Proof.
  intros Hr Hnot. unfold mul. case_decide as Hs; [|discriminate]. intros [= <-]. simpl.
  destruct (clear_bc_shape size rows) as [_ Hc]. rewrite Hc.
  rewrite <- (sum_upto_delta size r (fun k => entry A k c) Hr).
  apply sum_upto_ext. intros k _. rewrite clear_bc_entry.
  destruct (decide (r = k)); [|reflexivity].
  rewrite decide_False by exact Hnot. reflexivity.
Qed.

Lemma zero_outside_nonzero_rows (A : matrix) (r c : nat) :
  r ∉ nonzero_rows A -> (r < nrows A)%nat -> (c < ncols A)%nat -> entry A r c = 0.
Proof.
  intros Hnot Hr Hc. destruct (decide (entry A r c = 0)) as [|Hne]; [assumption|].
  exfalso. apply Hnot. apply nonzero_rows_spec. split; [exact Hr|].
  exists c. split; assumption.
Qed.

Lemma nonzero_rows_zeros (n k : nat) : nonzero_rows (zeros n k) = [].
Proof.
  destruct (nonzero_rows (zeros n k)) as [|r rest] eqn:E; [reflexivity|].
  assert (Hr : r ∈ nonzero_rows (zeros n k)) by (rewrite E; left).
  apply nonzero_rows_spec in Hr as (_ & c & _ & Hne). simpl in Hne. congruence.
Qed.

Section BuildMore.

Variable zeros_with_pattern : matrix -> matrix -> matrix.
Variable expand_pattern : matrix -> matrix -> matrix.
Hypothesis expand_pattern_entry :
  forall A P i j, entry (expand_pattern A P) i j = entry A i j.

(** The steps of [build_matrices] after the sums, by name. *)
Lemma build_matrices_inv (p : problem) (b : basis) (D : list Z) (pen : pencil) :
  build_matrices zeros_with_pattern expand_pattern p b D = Some pen ->
  exists m0 l0 Mb Lb m l m' l',
    let size := (psize p * coeff_size b)%nat in
    pde_matrices p b D size = Some (m0, l0)
    /\ boundary_M p b D = Some Mb /\ boundary_L p b D = Some Lb
    /\ mul (clear_bc size (boundary_rows Mb Lb)) m0 = Some m
    /\ mul (clear_bc size (boundary_rows Mb Lb)) l0 = Some l
    /\ add m Mb = Some m' /\ add l Lb = Some l'
    /\ bc_rows pen = boundary_rows Mb Lb
    /\ M pen = expand_pattern m' (zeros_with_pattern m' l')
    /\ L pen = expand_pattern l' (zeros_with_pattern m' l').
Proof using Type.
  unfold build_matrices. intros H.
  destruct (pde_matrices p b D (psize p * coeff_size b)) as [[m0 l0]|];
    [|discriminate]. cbn [mbind option_bind fst snd] in H.
  destruct (boundary_M p b D) as [Mb|]; [|discriminate].
  cbn [mbind option_bind] in H.
  destruct (boundary_L p b D) as [Lb|]; [|discriminate].
  cbn [mbind option_bind] in H.
  destruct (mul (clear_bc (psize p * coeff_size b) (boundary_rows Mb Lb)) m0)
    as [m|] eqn:Em; [|discriminate]. cbn [mbind option_bind] in H.
  destruct (mul (clear_bc (psize p * coeff_size b) (boundary_rows Mb Lb)) l0)
    as [l|] eqn:El; [|discriminate]. cbn [mbind option_bind] in H.
  destruct (add m Mb) as [m'|] eqn:Em'; [|discriminate].
  cbn [mbind option_bind] in H.
  destruct (add l Lb) as [l'|] eqn:El'; [|discriminate].
  cbn [mbind option_bind] in H. injection H as <-.
  exists m0, l0, Mb, Lb, m, l, m', l'. simpl. repeat split; auto.
Qed.

(** X8. Outside the boundary rows nothing changes: for a row index below
    the system size that is not a boundary row, the stored [M] and [L]
    have, in every column, the entries of the accumulated PDE sums. *)
Theorem other_rows_keep_pde_terms
    (p : problem) (b : basis) (D : list Z) (pen : pencil) (m0 l0 : matrix)
    (r c : nat) :
  build_matrices zeros_with_pattern expand_pattern p b D = Some pen ->
  pde_matrices p b D (psize p * coeff_size b) = Some (m0, l0) ->
  (r < psize p * coeff_size b)%nat -> (c < psize p * coeff_size b)%nat ->
  r ∉ bc_rows pen ->
  entry (M pen) r c = entry m0 r c /\ entry (L pen) r c = entry l0 r c.
Proof using expand_pattern_entry.
  intros Hb Hpde Hr Hc Hnot.
  destruct (build_matrices_inv _ _ _ _ Hb)
    as (m0' & l0' & Mb & Lb & m & l & m' & l' & H).
  simpl in H. destruct H as (Hp & HMb & HLb & Hm & Hl & Hm' & Hl' & Hrows & HM & HL).
  rewrite Hpde in Hp. injection Hp as <- <-.
  rewrite Hrows in Hnot. unfold boundary_rows in Hnot.
  apply not_elem_of_union in Hnot as [HnM HnL].
  rewrite elem_of_list_to_set in HnM, HnL.
  destruct (boundary_M_shape _ _ _ _ HMb) as [HrM HcM].
  destruct (boundary_L_shape _ _ _ _ HLb) as [HrL HcL].
  assert (Hnot' : r ∉ boundary_rows Mb Lb).
  { unfold boundary_rows. rewrite not_elem_of_union, !elem_of_list_to_set. auto. }
  rewrite HM, HL, !expand_pattern_entry.
  rewrite (add_entry _ _ _ r c Hm'), (add_entry _ _ _ r c Hl').
  rewrite (kept_row _ _ _ _ r c Hr Hnot' Hm), (kept_row _ _ _ _ r c Hr Hnot' Hl).
  rewrite (zero_outside_nonzero_rows Mb r c), (zero_outside_nonzero_rows Lb r c)
    by (assumption || lia).
  split; lia.
Qed.

(** X9. Every recorded boundary row is a row of the system: its index is
    below [problem.size * basis.coeff_size]; and when none of the six
    boundary coefficient arrays has a nonzero entry there is no boundary
    row at all. *)
Theorem boundary_rows_in_range
    (p : problem) (b : basis) (D : list Z) (pen : pencil) :
  build_matrices zeros_with_pattern expand_pattern p b D = Some pen ->
  (forall r, r ∈ bc_rows pen -> (r < psize p * coeff_size b)%nat)
  /\ (any (ML p D) = false -> any (MR p D) = false -> any (MI p D) = false ->
      any (LL p D) = false -> any (LR p D) = false -> any (LI p D) = false ->
      bc_rows pen = ∅).
Proof using Type.
  intros Hb.
  destruct (build_matrices_inv _ _ _ _ Hb)
    as (m0' & l0' & Mb & Lb & m & l & m' & l' & H).
  simpl in H. destruct H as (Hp & HMb & HLb & Hm & Hl & Hm' & Hl' & Hrows & HM & HL).
  destruct (boundary_M_shape _ _ _ _ HMb) as [HrM HcM].
  destruct (boundary_L_shape _ _ _ _ HLb) as [HrL HcL].
  split.
  - intros r Hr. rewrite Hrows in Hr. unfold boundary_rows in Hr.
    apply elem_of_union in Hr as [Hr|Hr]; apply elem_of_list_to_set in Hr;
      apply nonzero_rows_spec in Hr as [Hr _]; lia.
  - intros H1 H2 H3 H4 H5 H6. rewrite Hrows.
    unfold boundary_M, add_bc in HMb. rewrite H1, H2, H3 in HMb.
    unfold boundary_L, add_bc in HLb. rewrite H4, H5, H6 in HLb.
    injection HMb as <-. injection HLb as <-.
    unfold boundary_rows.
    rewrite !nonzero_rows_zeros. simpl. apply (left_id_L ∅ (∪)).
Qed.

End BuildMore.

Lemma other_rows_keep_pde_terms_witness :
  exists pen m0 l0,
    build_matrices (fun A _ => zeros (nrows A) (ncols A)) (fun A _ => A)
                   example_problem example_basis [] = Some pen
    /\ pde_matrices example_problem example_basis [] 2 = Some (m0, l0)
    /\ entry (L pen) 0 1 = entry l0 0 1 /\ entry l0 0 1 = 3.
Proof.
  eexists _, _, _. split; [reflexivity|]. split; [reflexivity|].
  match goal with
  | |- entry (L ?pen) _ _ = entry ?l0 _ _ /\ _ =>
      destruct (other_rows_keep_pde_terms
                  (fun A _ => zeros (nrows A) (ncols A)) (fun A _ => A)
                  (fun _ _ _ _ => eq_refl)
                  example_problem example_basis [] pen _ l0 0%nat 1%nat
                  eq_refl eq_refl) as [_ HL]
  end.
  - simpl. lia.
  - simpl. lia.
  - vm_compute. intros H. discriminate H.
  - split; [exact HL | reflexivity].
Defined.

Lemma boundary_rows_in_range_witness :
  exists pen,
    build_matrices (fun A _ => zeros (nrows A) (ncols A)) (fun A _ => A)
                   example_problem example_basis [] = Some pen
    /\ forall r, r ∈ bc_rows pen -> (r < 2)%nat.
Proof.
  eexists. split; [reflexivity|].
  apply (boundary_rows_in_range
           (fun A _ => zeros (nrows A) (ncols A)) (fun A _ => A)
           example_problem example_basis [] _ eq_refl).
Defined.


(** ** The boundary-value system of [Field.antidifferentiate]
    ([dedalus2/core/field.py]) *)

(** [A * v] for a sparse matrix and a coefficient vector; raises on a
    dimension mismatch. *)
Definition matvec (A : matrix) (v : list Z) : option (list Z) :=
  if decide (length v = ncols A) then
    Some (map (fun r => sum_upto (ncols A)
                          (fun k => entry A r k * default 0 (v !! k)))
              (seq 0 (nrows A)))
  else None.

(** The matrices [G] and [LHS] that [antidifferentiate] builds from the
    basis matrices: [BC] is the selected boundary functional, [Match] the
    basis's matching matrix when it has one (otherwise an empty matrix is
    used). *)
Definition antidiff_matrices (size : nat) (Pre Diff BC : matrix)
    (Match : option matrix) : option (matrix * matrix) :=
  let Lm := default (zeros size size) Match in
  let rows : gset nat := list_to_set (nonzero_rows BC) ∪ list_to_set (nonzero_rows Lm) in
  let F := clear_bc size rows in
  G ← mul F Pre;
  GD ← mul G Diff;
  s ← add GD BC;
  lhs ← add s Lm;
  Some (G, lhs).

(** [rhs = G*f_c[p] + BC*bc_c[p]] for one pencil. *)
Definition antidiff_rhs (G BC : matrix) (f_c bc_c : list Z) : option (list Z) :=
  a ← matvec G f_c;
  b ← matvec BC bc_c;
  if decide (length a = length b) then Some (zip_with Z.add a b) else None.

(** X10. In the system that [antidifferentiate] solves, every row where
    the boundary functional or the matching matrix has a nonzero entry
    holds nothing of the differentiation: the row of [G] is zero, the row
    of [LHS] is the row of [BC] plus that of the matching matrix, and the
    right-hand side there is the boundary functional applied to the
    boundary value alone. *)
Theorem antidifferentiate_boundary_rows
    (size : nat) (Pre Diff BC : matrix) (Match : option matrix)
    (G lhs : matrix) (f_c bc_c rhs : list Z) (r : nat) :
  antidiff_matrices size Pre Diff BC Match = Some (G, lhs) ->
  antidiff_rhs G BC f_c bc_c = Some rhs ->
  r ∈ nonzero_rows BC \/ r ∈ nonzero_rows (default (zeros size size) Match) ->
  (forall c, entry G r c = 0
             /\ entry lhs r c
                = entry BC r c + entry (default (zeros size size) Match) r c)
  /\ rhs !! r = Some (sum_upto (ncols BC)
                        (fun k => entry BC r k * default 0 (bc_c !! k))).
Proof.
  intros Hm Hrhs Hr. unfold antidiff_matrices in Hm.
  set (Lm := default (zeros size size) Match) in *.
  set (rows := (list_to_set (nonzero_rows BC) ∪ list_to_set (nonzero_rows Lm) : gset nat))
    in *.
  assert (Hin : r ∈ rows).
  { unfold rows. apply elem_of_union.
    destruct Hr as [Hr|Hr]; [left|right]; apply elem_of_list_to_set; exact Hr. }
  destruct (mul (clear_bc size rows) Pre) as [G'|] eqn:EG; [|discriminate].
  cbn [mbind option_bind] in Hm.
  destruct (mul G' Diff) as [GD|] eqn:EGD; [|discriminate].
  cbn [mbind option_bind] in Hm.
  destruct (add GD BC) as [s|] eqn:Es; [|discriminate].
  cbn [mbind option_bind] in Hm.
  destruct (add s Lm) as [lhs'|] eqn:El; [|discriminate].
  cbn [mbind option_bind] in Hm. injection Hm as <- <-.
  assert (HG : forall c, entry G' r c = 0)
    by (intros c; apply (cleared_row size rows Pre G' r c Hin EG)).
  assert (HGD : forall c, entry GD r c = 0).
  { intros c. unfold mul in EGD. case_decide; [|discriminate].
    injection EGD as <-. simpl. apply sum_upto_zero. intros k.
    rewrite HG. reflexivity. }
  split.
  - intros c. split; [apply HG|].
    rewrite (add_entry _ _ _ r c El), (add_entry _ _ _ r c Es), HGD. lia.
  - unfold antidiff_rhs in Hrhs.
    destruct (matvec G' f_c) as [a|] eqn:Ea; [|discriminate].
    cbn [mbind option_bind] in Hrhs.
    destruct (matvec BC bc_c) as [b|] eqn:Eb; [|discriminate].
    cbn [mbind option_bind] in Hrhs.
    case_decide as Hlen; [|discriminate]. injection Hrhs as <-.
    unfold matvec in Ea, Eb.
    case_decide as Hla; [|discriminate]. case_decide as Hlb; [|discriminate].
    injection Ea as <-. injection Eb as <-.
    rewrite !length_map, !length_seq in Hlen.
    assert (Hrow : (r < nrows BC)%nat).
    { apply add_shape in Es as (Hs0 & _ & Hs1 & _).
      apply add_shape in El as (_ & _ & Hs2 & _).
      destruct Hr as [Hr|Hr]; apply nonzero_rows_spec in Hr as [Hr _]; [exact Hr|].
      fold Lm in Hr. lia. }
    rewrite lookup_zip_with, !list_lookup_fmap, !lookup_seq_lt by lia.
    simpl. f_equal.
    rewrite (sum_upto_zero (ncols G')); [lia|]. intros k. rewrite HG. reflexivity.
Qed.

Lemma antidifferentiate_boundary_rows_witness :
  exists G lhs rhs,
    antidiff_matrices 2 (Pre example_basis) (Diff example_basis)
                      (Left example_basis) None = Some (G, lhs)
    /\ antidiff_rhs G (Left example_basis) [4; 6] [5; 7] = Some rhs
    /\ entry lhs 1 0 = 1 /\ entry G 1 1 = 0 /\ rhs !! 1%nat = Some 12.
Proof.
  eexists _, _, _. split; [reflexivity|]. split; [reflexivity|].
  match goal with
  | |- entry ?lhs _ _ = _ /\ entry ?G _ _ = _ /\ ?rhs !! _ = _ =>
      destruct (antidifferentiate_boundary_rows 2 (Pre example_basis)
                  (Diff example_basis) (Left example_basis) None G lhs
                  [4; 6] [5; 7] rhs 1%nat eq_refl eq_refl) as [Hrow Hrhs]
  end.
  - left. apply list_elem_of_In. vm_compute. auto.
  - destruct (Hrow 0%nat) as [_ Hl]. destruct (Hrow 1%nat) as [Hg _].
    split; [exact Hl|]. split; [exact Hg|]. exact Hrhs.
Defined.

End PencilMatrices.

(* ===================================================================== *)
(** * 4. Operator construction ([dedalus/core/operators.py]) *)
(* ===================================================================== *)

Module Dispatch.

(** The operand classes the operator module tells apart in its
    [argtypes] tables. *)
Inductive opclass := Scalar | Array | Field | FutureArray | FutureField.

(** Modelled from the spec: an operand as the construction code reads it
    (the operand classes that [operators.py] imports are not among the
    sources): its class, its [name], its [value], and its [bases], one per
    axis, [None] meaning constant along that axis. *)
Record operand := {
  cls : opclass;
  name : option string;
  value : Z;
  bases : list (option nat)
}.

(** A constructor argument: a Python number or an operand. *)
Inductive pyobj :=
| Number (z : Z)
| Operand (o : operand).

(** What a constructor call evaluates to. *)
Inductive built :=
| Literal (z : Z)                       (* a plain number *)
| Existing (o : operand)                (* an argument, returned as it is *)
| PowerNode (arg0 arg1 : operand) (require_grid_axis : option nat)
                                        (* a [PowerFieldConstant] instance *)
| DifferentiateNode (variant : nat) (arg : operand) (axis : nat).
                                        (* a basis-specific [Differentiate] *)

Inductive error := NoMatchingVariant | DegenerateVariants.

Inductive outcome :=
| Ok (b : built)
| Raise (e : error).

(** Modelled from the spec: [tools.dispatch.MultiClass.__call__] (not among
    the sources).  After preprocessing, the subclasses whose [_check_args]
    accepts the arguments are collected; exactly one must accept, and it
    is instantiated; otherwise the construction signals an error. *)
Definition multiclass_call {V A : Type}
    (check_args : V -> A -> bool) (instantiate : V -> A -> outcome)
    (subclasses : list V) (args : A) : outcome :=
  match filter (fun v => check_args v args = true) subclasses with
  | [] => Raise NoMatchingVariant
  | [v] => instantiate v args
  | _ => Raise DegenerateVariants
  end.

(** ** [Power] *)

(** [Operand.cast] ([raw_cast] in [dedalus2/core/field.py]): an operand
    is returned as it is, and a number becomes [Scalar(value=x)], an
    unnamed scalar, constant along every axis. *)
Definition cast (dim : nat) (x : pyobj) : operand :=
  match x with
  | Number z => {| cls := Scalar; name := None; value := z;
                   bases := replicate dim None |}
  | Operand o => o
  end.

(** [isinstance(arg, (Field, FutureField))] *)
Definition is_field (o : operand) : bool :=
  match cls o with
  | Field | FutureField => true
  | _ => false
  end.

Definition is_None {A} (x : option A) : bool :=
  match x with None => true | Some _ => false end.

(** [Power._check_args] with [PowerFieldConstant.argtypes] *)
Definition Power_check_args (args : operand * operand) : bool :=
  let isinstance_match := is_field args.1 && is_field args.2 in
  let arg1_constant := forallb is_None (bases args.2) in
  isinstance_match && arg1_constant.

(** The loop of [PowerFieldConstant.__init__]: the first axis along which
    the base is not constant. *)
Fixpoint first_grid_axis (axis : nat) (bs : list (option nat)) : option nat :=
  match bs with
  | [] => None
  | Some _ :: _ => Some axis
  | None :: bs' => first_grid_axis (S axis) bs'
  end.

(** [PowerFieldConstant.__new__] followed, for a fresh instance, by
    [__init__]. *)
Definition PowerFieldConstant_new (args : operand * operand) : built :=
  let arg0 := args.1 in
  let arg1 := args.2 in
  if is_None (name arg1) && (value arg1 =? 0) then Literal 1
  else if is_None (name arg1) && (value arg1 =? 1) then Existing arg0
  else PowerNode arg0 arg1 (first_grid_axis 0 (bases arg0)).

(** The subclasses of [Power]: [PowerFieldConstant] alone. *)
Inductive power_variant := PowerFieldConstant.

(** [Power(arg0, arg1)] *)
Definition Power (dim : nat) (arg0 arg1 : pyobj) : outcome :=
  let args := (cast dim arg0, cast dim arg1) in
  multiclass_call (fun _ => Power_check_args)
                  (fun _ a => Ok (PowerFieldConstant_new a))
                  [PowerFieldConstant] args.

(** ** [Differentiate] *)

(** Modelled from the spec: [operand.get_basis(space)], the operand's basis
    along the axis of the space. *)
Definition get_basis (o : operand) (axis : nat) : option nat :=
  default None (bases o !! axis).

(** The subclasses of [Differentiate]: the constant one, and one per basis
    type, each with its [input_basis_type] (a class of bases). *)
Inductive diff_variant :=
| DifferentiateConstant
| DifferentiateBasis (variant : nat) (input_basis_type : nat -> bool).

(** [_check_args] of each subclass *)
Definition Differentiate_check_args (v : diff_variant) (args : pyobj * nat) : bool :=
  match v, args.1 with
  | DifferentiateConstant, Number _ => true
  | DifferentiateConstant, Operand o => is_None (get_basis o args.2)
  | DifferentiateBasis _ _, Number _ => false
  | DifferentiateBasis _ ty, Operand o =>
      match get_basis o args.2 with
      | Some b => ty b
      | None => false      (* [isinstance(None, ...)] *)
      end
  end.

Definition Differentiate_new (v : diff_variant) (args : pyobj * nat) : outcome :=
  match v, args.1 with
  | DifferentiateConstant, _ => Ok (Literal 0)
  | DifferentiateBasis k _, Operand o => Ok (DifferentiateNode k o args.2)
  | DifferentiateBasis _ _, Number _ => Raise NoMatchingVariant
  end.

(** [Differentiate(operand, space)], for the registered basis variants. *)
Definition Differentiate (basis_variants : list diff_variant)
    (operand : pyobj) (axis : nat) : outcome :=
  multiclass_call Differentiate_check_args Differentiate_new
                  (DifferentiateConstant :: basis_variants) (operand, axis).

(** Whether a variant list holds basis variants only. *)
Definition basis_only (vs : list diff_variant) : Prop :=
  Forall (fun v => v <> DifferentiateConstant) vs.

(** ** [Scalar.__eq__] ([dedalus2/core/field.py]) *)


(** ** Construction-time short cuts *)

Lemma multiclass_call_single {V A : Type}
    (check_args : V -> A -> bool) (instantiate : V -> A -> outcome)
    (v : V) (rest : list V) (args : A) :
  check_args v args = true ->
  Forall (fun w => check_args w args = false) rest ->
  multiclass_call check_args instantiate (v :: rest) args = instantiate v args.
Proof.
  intros Hv Hrest. unfold multiclass_call.
  rewrite filter_cons_True by exact Hv.
  replace (filter (fun w => check_args w args = true) rest) with (@nil V);
    [reflexivity|].
  symmetry. induction Hrest as [|w rest Hw _ IH]; [reflexivity|].
  rewrite filter_cons_False by (rewrite Hw; discriminate). exact IH.
Qed.

Lemma multiclass_call_none {V A : Type}
    (check_args : V -> A -> bool) (instantiate : V -> A -> outcome)
    (vs : list V) (args : A) :
  Forall (fun w => check_args w args = false) vs ->
  multiclass_call check_args instantiate vs args = Raise NoMatchingVariant.
Proof.
  intros H. unfold multiclass_call.
  replace (filter (fun w => check_args w args = true) vs) with (@nil V);
    [reflexivity|].
  symmetry. induction H as [|w rest Hw _ IH]; [reflexivity|].
  rewrite filter_cons_False by (rewrite Hw; discriminate). exact IH.
Qed.








(** C6. [Power(base, exponent)] with an exponent that has a basis other
    than [None] along some axis is accepted by no variant: the construction
    signals an error and builds no node, whatever the base. *)
Theorem Power_variable_exponent_rejected
    (dim : nat) (base : pyobj) (e : operand) (axis b : nat) :
  bases e !! axis = Some (Some b) ->
  Power dim base (Operand e) = Raise NoMatchingVariant.
Proof.
  intros He. unfold Power. apply multiclass_call_none.
  constructor; [|constructor]. unfold Power_check_args. simpl.
  assert (Hc : forallb is_None (bases e) = false).
  { apply not_true_is_false. intros Hall.
    rewrite forallb_forall in Hall.
    specialize (Hall (Some b)). simpl in Hall.
    assert (Hin : In (Some b) (bases e))
      by (apply list_elem_of_In, list_elem_of_lookup; eauto).
    specialize (Hall Hin). discriminate. }
  rewrite Hc. apply andb_false_r.
Qed.

Lemma Power_variable_exponent_rejected_witness :
  Power 2 (Operand {| cls := Field; name := Some "u"; value := 0;
                      bases := [Some 3%nat; Some 7%nat] |})
          (Operand {| cls := Field; name := Some "p"; value := 2;
                      bases := [None; Some 7%nat] |})
  = Raise NoMatchingVariant.
Proof.
  apply (Power_variable_exponent_rejected 2 _ _ 1%nat 7%nat). reflexivity.
Defined.




(** ** More on construction *)





Lemma multiclass_call_cases {V A : Type}
    (check_args : V -> A -> bool) (instantiate : V -> A -> outcome)
    (vs : list V) (args : A) :
  (exists e, multiclass_call check_args instantiate vs args = Raise e)
  \/ exists v, v ∈ vs /\ check_args v args = true
               /\ multiclass_call check_args instantiate vs args = instantiate v args.
Proof.
  unfold multiclass_call.
  destruct (filter (fun v => check_args v args = true) vs) as [|v [|w rest]] eqn:E.
  - left. eexists. reflexivity.
  - right. exists v.
    assert (Hin : v ∈ filter (fun v => check_args v args = true) vs)
      by (rewrite E; left).
    apply list_elem_of_filter in Hin as [Hc Hin]. auto.
  - left. eexists. reflexivity.
Qed.

(** X16. [Differentiate] of a number is the literal 0 whatever basis
    variants are registered; and of an operand that has a basis along the
    space it is never a literal: it is a node of a basis variant whose
    input type takes that basis, or an error. *)
Theorem Differentiate_number_and_nonconstant
    (vs : list diff_variant) (z : Z) (o : operand) (axis b : nat) :
  basis_only vs ->
  get_basis o axis = Some b ->
  Differentiate vs (Number z) axis = Ok (Literal 0)
  /\ ((exists e, Differentiate vs (Operand o) axis = Raise e)
      \/ exists k ty, DifferentiateBasis k ty ∈ vs /\ ty b = true
                      /\ Differentiate vs (Operand o) axis
                         = Ok (DifferentiateNode k o axis)).
Proof.
  intros Hvs Hb. split.
  - unfold Differentiate. rewrite multiclass_call_single; [reflexivity | reflexivity|].
    clear -Hvs. induction Hvs as [|v vs Hv _ IH]; constructor; [|exact IH].
    destruct v; [congruence | reflexivity].
  - unfold Differentiate.
    assert (Hskip : multiclass_call Differentiate_check_args Differentiate_new
                      (DifferentiateConstant :: vs) (Operand o, axis)
                    = multiclass_call Differentiate_check_args Differentiate_new
                        vs (Operand o, axis)).
    { unfold multiclass_call. rewrite filter_cons_False; [reflexivity|].
      simpl. rewrite Hb. discriminate. }
    rewrite Hskip.
    destruct (multiclass_call_cases Differentiate_check_args Differentiate_new
                vs (Operand o, axis)) as [He|(v & Hin & Hc & Hcall)];
      [left; exact He|].
    right. destruct v as [|k ty].
    + simpl in Hc. rewrite Hb in Hc. discriminate.
    + exists k, ty. simpl in Hc. rewrite Hb in Hc.
      split; [exact Hin|]. split; [exact Hc|]. rewrite Hcall. reflexivity.
Qed.

Lemma Differentiate_number_and_nonconstant_witness :
  let u := {| cls := Field; name := Some "u"; value := 0; bases := [Some 3%nat] |} in
  Differentiate [DifferentiateBasis 0 (fun b => Nat.eqb b 3)] (Number 5) 0
  = Ok (Literal 0).
Proof.
  intros u.
  apply (Differentiate_number_and_nonconstant
           [DifferentiateBasis 0 (fun b => Nat.eqb b 3)] 5 u 0 3).
  - repeat constructor. discriminate.
  - reflexivity.
Defined.

End Dispatch.

(* ===================================================================== *)
(** * 5. Symbolic operations on expression trees *)
(* ===================================================================== *)

Module Symbolic.

(** The NumPy functions of [UnaryGridFunction.supported]. *)
Inductive func :=
| absolute | sign | conj | exp | exp2 | log | log2 | log10 | sqrt | square
| sin | cos | tan | arcsin | arccos | arctan
| sinh | cosh | tanh | arcsinh | arccosh | arctanh.

(** Leaves ([Data] in [dedalus2/core/field.py]); [id] stands for the
    object's identity. *)
Inductive leaf :=
| Scalar (id : nat) (name : option string) (value : Z)
| Array (id : nat)
| Field (id : nat).

(** Linear operators with their arguments other than the operand. *)
Inductive linop :=
| Differentiate (space : nat)
| HilbertTransform (space : nat)
| Interpolate (space : nat) (position : Z)
| Integrate (space : nat) (problem_length : Z)
| Filter (space : nat) (mode : Z)
| TimeDerivative.

(** Nonlinear operators. *)
Inductive nonlin :=
| Power
| UnaryGridFunction (f : func)
| GeneralFunction (name : string).

(** Operator classes, as the [base] property returns them and as they may
    be named in a variable list. *)
Inductive opclass :=
| CDifferentiate | CHilbertTransform | CInterpolate | CIntegrate | CFilter
| CTimeDerivative | CConvert
| CPower | CUnaryGridFunction | CGeneralFunction.

(** Expression trees. *)
#[warnings="-register-all"]
Inductive operand :=
| Data (d : leaf)
| Linear (op : linop) (arg : operand)
| Convert (space output_basis : nat) (arg : operand)
| Nonlinear (k : nonlin) (args : list operand).

(** A Python value in these computations: a number or an operand. *)
Inductive value :=
| Number (z : Z)
| Op (o : operand).

(** An entry of [*vars]: an operand (here a leaf) or an operator class. *)
Inductive var :=
| VData (d : leaf)
| VClass (c : opclass).

#[global] Instance leaf_eq_dec : EqDecision leaf.
Proof. solve_decision. Defined.
#[global] Instance opclass_eq_dec : EqDecision opclass.
Proof. solve_decision. Defined.

(** [LinearOperator.base] of each subclass *)
Definition lin_base (op : linop) : opclass :=
  match op with
  | Differentiate _ => CDifferentiate
  | HilbertTransform _ => CHilbertTransform
  | Interpolate _ _ => CInterpolate
  | Integrate _ _ => CIntegrate
  | Filter _ _ => CFilter
  | TimeDerivative => CTimeDerivative
  end.

Definition nonlin_base (k : nonlin) : opclass :=
  match k with
  | Power => CPower
  | UnaryGridFunction _ => CUnaryGridFunction
  | GeneralFunction _ => CGeneralFunction
  end.

(** [self == other] for two leaves: the same object, or [Scalar.__eq__]:
    an unnamed scalar compares its value with [other], which succeeds
    against another unnamed scalar of the same value. *)
Definition leaf_eq (self other : leaf) : bool :=
  bool_decide (self = other)
  || match self, other with
     | Scalar _ None v, Scalar _ None w => v =? w
     | _, _ => false
     end.

(** [self in vars] for a leaf *)
Definition leaf_in (d : leaf) (V : list var) : bool :=
  existsb (fun v => match v with VData e => leaf_eq d e | VClass _ => false end) V.

(** [self.base in vars] *)
Definition class_in (c : opclass) (V : list var) : bool :=
  existsb (fun v => match v with VClass c' => bool_decide (c = c') | VData _ => false end) V.

(** [has] over a variable list: [Data.has] for a leaf.  Modelled from the spec for the
    operator nodes ([Future.has] is not among the sources): the node's
    class is named, or some argument mentions a variable. *)
Fixpoint has (V : list var) (x : operand) : bool :=
  match x with
  | Data d => leaf_in d V
  | Linear op arg => class_in (lin_base op) V || has V arg
  | Convert _ _ arg => class_in CConvert V || has V arg
  | Nonlinear k args => class_in (nonlin_base k) V || existsb (has V) args
  end.

Definition value_has (V : list var) (v : value) : bool :=
  match v with
  | Number _ => false
  | Op o => has V o
  end.

Section Split.

(** [self.base(operand, ...)] for an operand argument: the dispatch among
    the basis-specific variants (not among the sources). *)
Variable rebuild : linop -> operand -> value.

(** [new_operand]: the base called again with the operand replaced.  For a
    number the constant variants of the sources apply. *)
Definition new_operand (op : linop) (v : value) : value :=
  match v with
  | Number z =>
      match op with
      | Differentiate _ => Number 0            (* [DifferentiateConstant] *)
      | HilbertTransform _ => Number 0         (* [HilbertTransformConstant] *)
      | Interpolate _ _ => Number z            (* [InterpolateConstant] *)
      | Integrate _ len => Number (len * z)    (* [IntegrateConstant] *)
      | Filter _ mode => if mode =? 0 then Number z else Number 0
      | TimeDerivative => Number 0
      end
  | Op o => rebuild op o
  end.

(** [split] over a variable list: [Data.split], [LinearOperator.split], [Convert.split]
    and [NonlinearOperator.split]. *)
Fixpoint split (V : list var) (x : operand) : value * value :=
  match x with
  | Data d =>
      if leaf_in d V then (Op x, Number 0) else (Number 0, Op x)
  | Linear op arg =>
      if class_in (lin_base op) V then (Op x, Number 0)
      else let r := split V arg in (new_operand op r.1, new_operand op r.2)
  | Convert _ _ arg => split V arg
  | Nonlinear _ _ =>
      if has V x then (Op x, Number 0) else (Number 0, Op x)
  end.

End Split.

(** ** Meaning of an expression under a valuation *)

(** A valuation: a value for every leaf and a map for every operator. *)
Record valuation := {
  leaf_val : leaf -> Z;
  lin_val : linop -> Z -> Z;
  nonlin_val : nonlin -> list Z -> Z
}.

(** The value of an expression; a basis conversion does not change it. *)
Fixpoint eval (I : valuation) (x : operand) : Z :=
  match x with
  | Data d => leaf_val I d
  | Linear op arg => lin_val I op (eval I arg)
  | Convert _ _ arg => eval I arg
  | Nonlinear k args => nonlin_val I k (map (eval I) args)
  end.

Definition eval_value (I : valuation) (v : value) : Z :=
  match v with
  | Number z => z
  | Op o => eval I o
  end.

(** The operators of a valuation are additive. *)
Definition additive (I : valuation) : Prop :=
  forall op u v, lin_val I op (u + v) = lin_val I op u + lin_val I op v.

(** The leaves of an expression. *)
Fixpoint leaves (x : operand) : list leaf :=
  match x with
  | Data d => [d]
  | Linear _ arg => leaves arg
  | Convert _ _ arg => leaves arg
  | Nonlinear _ args => flat_map leaves args
  end.

(** Every leaf of the value is one of the variables. *)
Definition only_vars (V : list var) (v : value) : bool :=
  match v with
  | Number _ => true
  | Op o => forallb (fun d => leaf_in d V) (leaves o)
  end.

(** ** Properties of [split] *)

Section SplitProperties.

Variable rebuild : linop -> operand -> value.

(** What the absent dispatch is taken to guarantee: when it simplifies to a
    number, that number is the literal 0; and the value it returns mentions
    a variable only if the operator is named or the operand mentions one. *)
Hypothesis rebuild_zero :
  forall op o z, rebuild op o = Number z -> z = 0.
Hypothesis rebuild_mentions :
  forall V op o, value_has V (rebuild op o) = true ->
                 class_in (lin_base op) V || has V o = true.

Variable I : valuation.
Hypothesis I_additive : additive I.
(** The value the dispatch returns denotes the operator applied to the
    operand. *)
Hypothesis rebuild_sound :
  forall op o, eval_value I (rebuild op o) = lin_val I op (eval I o).

(** A component of a split is the literal 0 or an operand. *)
Definition zero_or_operand (v : value) : Prop :=
  match v with
  | Number z => z = 0
  | Op _ => True
  end.

Lemma new_operand_zero (op : linop) :
  new_operand rebuild op (Number 0) = Number 0.
Proof using Type.
  destruct op; simpl; try reflexivity.
  - rewrite Z.mul_0_r. reflexivity.
  - destruct (mode =? 0); reflexivity.
Qed.

Lemma new_operand_zero_or_operand (op : linop) (v : value) :
  zero_or_operand v -> zero_or_operand (new_operand rebuild op v).
Proof using rebuild_zero.
  destruct v as [z|o]; simpl.
  - intros ->. pose proof (new_operand_zero op) as H. simpl in H. rewrite H. reflexivity.
  - intros _. destruct (rebuild op o) as [z|o'] eqn:E; simpl; [|exact Logic.I].
    eapply rebuild_zero. exact E.
Qed.

Lemma split_zero_or_operand (V : list var) (x : operand) :
  zero_or_operand (split rebuild V x).1 /\ zero_or_operand (split rebuild V x).2.
Proof using rebuild_zero.
  induction x as [d|op arg IH|sp ob arg IH|k args]; simpl.
  - destruct (leaf_in d V); simpl; auto.
  - destruct (class_in (lin_base op) V); simpl; [auto|].
    destruct IH as [IH1 IH2]. split; apply new_operand_zero_or_operand; assumption.
  - exact IH.
  - destruct (class_in (nonlin_base k) V || existsb (has V) args); simpl; auto.
Qed.

Lemma lin_val_zero (op : linop) : lin_val I op 0 = 0.
Proof using I_additive.
  assert (H : lin_val I op (0 + 0) = lin_val I op 0 + lin_val I op 0)
    by apply I_additive.
  rewrite Z.add_0_l in H. lia.
Qed.

Lemma eval_new_operand (op : linop) (v : value) :
  zero_or_operand v ->
  eval_value I (new_operand rebuild op v) = lin_val I op (eval_value I v).
Proof using I_additive rebuild_sound.
  destruct v as [z|o]; simpl.
  - intros ->. pose proof (new_operand_zero op) as H. simpl in H. rewrite H.
    simpl. symmetry. apply lin_val_zero.
  - intros _. apply rebuild_sound.
Qed.

Lemma split_sum (V : list var) (x : operand) :
  eval_value I (split rebuild V x).1 + eval_value I (split rebuild V x).2 = eval I x.
Proof using I_additive rebuild_sound rebuild_zero.
  induction x as [d|op arg IH|sp ob arg IH|k args]; simpl.
  - destruct (leaf_in d V); simpl; lia.
  - destruct (class_in (lin_base op) V); simpl; [lia|].
    destruct (split_zero_or_operand V arg) as [H1 H2].
    rewrite !eval_new_operand by assumption.
    rewrite <- I_additive, IH. reflexivity.
  - exact IH.
  - destruct (class_in (nonlin_base k) V || existsb (has V) args); simpl; lia.
Qed.

Lemma value_has_new_operand (V : list var) (op : linop) (v : value) :
  class_in (lin_base op) V = false -> value_has V v = false ->
  value_has V (new_operand rebuild op v) = false.
Proof using rebuild_mentions.
  intros Hc Hv. destruct v as [z|o]; simpl in *.
  - destruct op; simpl; try reflexivity. destruct (mode =? 0); reflexivity.
  - apply not_true_is_false. intros H. apply rebuild_mentions in H.
    rewrite Hc, Hv in H. discriminate.
Qed.

Lemma split_independent (V : list var) (x : operand) :
  value_has V (split rebuild V x).2 = false.
Proof using rebuild_mentions.
  induction x as [d|op arg IH|sp ob arg IH|k args]; simpl.
  - destruct (leaf_in d V) eqn:E; simpl; [reflexivity | exact E].
  - destruct (class_in (lin_base op) V) eqn:E; simpl; [reflexivity|].
    apply value_has_new_operand; assumption.
  - exact IH.
  - destruct (class_in (nonlin_base k) V || existsb (has V) args) eqn:E; simpl;
      [reflexivity | exact E].
Qed.

Lemma split_absent (V : list var) (x : operand) :
  has V x = false -> (split rebuild V x).1 = Number 0.
Proof using Type.
  induction x as [d|op arg IH|sp ob arg IH|k args]; simpl; intros H.
  - rewrite H. reflexivity.
  - apply orb_false_iff in H as [Hc Ha]. rewrite Hc. simpl.
    rewrite (IH Ha). apply new_operand_zero.
  - apply orb_false_iff in H as [_ Ha]. apply IH, Ha.
  - rewrite H. reflexivity.
Qed.

(** C3, as amended.  For every operand [x] and variable list [V],
    [split] returns [(a, b)] with [a + b] equal to [x] under every additive
    valuation, [b] mentioning no variable of [V], and [a] the literal 0
    whenever [x] mentions none; [a] itself may mention variables outside
    [V].  A leaf goes wholly to [a] or to [b] by membership in [V]; a
    linear operator whose class is named in [V] goes wholly to [a] and
    otherwise is applied to both parts of its operand's split; a basis
    conversion hands on its operand's split; a nonlinear operator goes
    wholly to [a] exactly when it mentions a variable of [V], and wholly to
    [b] otherwise. *)
Theorem split_decomposes (V : list var) (x : operand) :
  eval_value I (split rebuild V x).1 + eval_value I (split rebuild V x).2 = eval I x
  /\ value_has V (split rebuild V x).2 = false
  /\ (has V x = false -> (split rebuild V x).1 = Number 0)
  /\ (forall d, split rebuild V (Data d)
                = if leaf_in d V then (Op (Data d), Number 0)
                  else (Number 0, Op (Data d)))
  /\ (forall op arg, split rebuild V (Linear op arg)
                = if class_in (lin_base op) V then (Op (Linear op arg), Number 0)
                  else (new_operand rebuild op (split rebuild V arg).1,
                        new_operand rebuild op (split rebuild V arg).2))
  /\ (forall sp ob arg, split rebuild V (Convert sp ob arg) = split rebuild V arg)
  /\ (forall k args, split rebuild V (Nonlinear k args)
                = if has V (Nonlinear k args) then (Op (Nonlinear k args), Number 0)
                  else (Number 0, Op (Nonlinear k args))).
Proof using I_additive rebuild_sound rebuild_zero rebuild_mentions.
  split; [apply split_sum|]. split; [apply split_independent|].
  split; [apply split_absent|]. repeat split; reflexivity.
Qed.

End SplitProperties.

(** The dispatch that always builds the node, and a valuation that doubles
    under every linear operator. *)
Definition node_rebuild (op : linop) (o : operand) : value := Op (Linear op o).

Definition doubling : valuation :=
  {| leaf_val := fun d => match d with
                          | Scalar _ _ v => v
                          | Array id => Z.of_nat id
                          | Field id => Z.of_nat id
                          end;
     lin_val := fun _ z => 2 * z;
     nonlin_val := fun _ zs => foldr Z.add 1 zs |}.

Lemma split_decomposes_witness :
  let V := [VData (Field 1)] in
  let x := Linear (Differentiate 0) (Data (Field 1)) in
  eval_value doubling (split node_rebuild V x).1
  + eval_value doubling (split node_rebuild V x).2 = eval doubling x
  /\ value_has V (split node_rebuild V x).2 = false.
Proof.
  intros V x.
  destruct (split_decomposes node_rebuild
              (fun op o z (H : node_rebuild op o = Number z) =>
                 match H in _ = v return match v with Number _ => z = 0 | Op _ => True end
                 with eq_refl => Logic.I end)
              (fun V op o H => H)
              doubling
              (fun op u v => Z.mul_add_distr_l 2 u v)
              (fun op o => eq_refl)
              V x) as (Hsum & Hind & _).
  split; [exact Hsum | exact Hind].
Defined.

(** C3, as stated, fails: with [V = {f}], the power node [f ** g] goes
    wholly to the first component, which then mentions [g], not in [V]. *)
Lemma split_part_mentions_other_variables :
  let f := Field 1 in
  let g := Field 2 in
  let x := Nonlinear Power [Data f; Data g] in
  split node_rebuild [VData f] x = (Op x, Number 0)
  /\ only_vars [VData f] (split node_rebuild [VData f] x).1 = false.
Proof. simpl. split; reflexivity. Qed.

(** ** [UnaryGridFunction.sym_diff] *)

(** [UnaryGridFunction.supported], in the order of the source. *)
Definition supported : list func :=
  [absolute; sign; conj; exp; exp2; log; log2; log10; sqrt; square;
   sin; cos; tan; arcsin; arccos; arctan;
   sinh; cosh; tanh; arcsinh; arccosh; arctanh].

#[global] Instance func_eq_dec : EqDecision func.
Proof. solve_decision. Defined.

(** Numeric constants as the rules write them. *)
Inductive num :=
| Int (z : Z)
| Quot (a b : Z)          (* [a/b] *)
| NpLog (z : Z).          (* [np.log(z)] *)

(** The Python expressions the rules are made of.  The arithmetic on
    operands is left as written: the classes it builds ([Add], [Multiply])
    are not among the sources. *)
Inductive pyexpr :=
| Val (v : value)
| Const (c : num)
| Call (f : func) (e : pyexpr)        (* [np.f(e)] *)
| Neg (e : pyexpr)
| Plus (a b : pyexpr)
| Minus (a b : pyexpr)
| Times (a b : pyexpr)
| Pow (e : pyexpr) (c : num).

(** [diff_map]: the rule of each function that has one; a missing key is
    [None]. *)
Definition diff_map (f : func) : option (pyexpr -> pyexpr) :=
  match f with
  | absolute => Some (fun x => Call sign x)
  | sign => Some (fun x => Const (Int 0))
  | conj => None
  | exp => Some (fun x => Call exp x)
  | exp2 => Some (fun x => Times (Call exp2 x) (Const (NpLog 2)))
  | log => Some (fun x => Pow x (Int (-1)))
  | log2 => Some (fun x => Pow (Times x (Const (NpLog 2))) (Int (-1)))
  | log10 => Some (fun x => Pow (Times x (Const (NpLog 10))) (Int (-1)))
  | sqrt => Some (fun x => Times (Const (Quot 1 2)) (Pow x (Quot (-1) 2)))
  | square => Some (fun x => Times (Const (Int 2)) x)
  | sin => Some (fun x => Call cos x)
  | cos => Some (fun x => Neg (Call sin x))
  | tan => Some (fun x => Pow (Call cos x) (Int (-2)))
  | arcsin => Some (fun x => Pow (Minus (Const (Int 1)) (Pow x (Int 2))) (Quot (-1) 2))
  | arccos => Some (fun x => Neg (Pow (Minus (Const (Int 1)) (Pow x (Int 2))) (Quot (-1) 2)))
  | arctan => Some (fun x => Pow (Plus (Const (Int 1)) (Pow x (Int 2))) (Int (-1)))
  | sinh => Some (fun x => Call cosh x)
  | cosh => Some (fun x => Call sinh x)
  | tanh => Some (fun x => Pow (Call cosh x) (Int (-2)))
  | arcsinh => Some (fun x => Pow (Plus (Pow x (Int 2)) (Const (Int 1))) (Quot (-1) 2))
  | arccosh => Some (fun x => Pow (Minus (Pow x (Int 2)) (Const (Int 1))) (Quot (-1) 2))
  | arctanh => Some (fun x => Pow (Minus (Const (Int 1)) (Pow x (Int 2))) (Int (-1)))
  end.

(** [UnaryGridFunction(f, arg).sym_diff(var)], given what
    [arg.sym_diff(var)] returned; [None] is the [KeyError] of the table
    lookup. *)
Definition UnaryGridFunction_sym_diff (f : func) (arg : operand) (arg_diff : pyexpr)
  : option pyexpr :=
  rule ← diff_map f;
  Some (Times (rule (Val (Op arg))) arg_diff).

Lemma sym_diff_rules_except_conj (f : func) (arg : operand) (arg_diff : pyexpr) :
  In f supported -> f <> conj ->
  exists rule, diff_map f = Some rule
    /\ UnaryGridFunction_sym_diff f arg arg_diff
       = Some (Times (rule (Val (Op arg))) arg_diff).
Proof.
  intros _ Hne. destruct f; try congruence; eexists; split; reflexivity.
Qed.

(** C5 does not hold of the code: [conj] is among the supported functions
    and is the one key missing from the table of derivative rules, so
    differentiating its node raises instead of returning a rule times the
    operand's derivative. *)
Theorem sym_diff_table_misses_conj :
  In conj supported
  /\ diff_map conj = None
  /\ (forall arg arg_diff, UnaryGridFunction_sym_diff conj arg arg_diff = None)
  /\ filter (fun f => diff_map f = None) supported = [conj].
Proof.
  split; [simpl; tauto|]. split; [reflexivity|]. split; [reflexivity|].
  reflexivity.
Qed.

(** ** [sym_diff] on leaves, linear operators and conversions *)

(** Expressions made of a leaf under linear operators and basis
    conversions. *)
Inductive linexpr :=
| LData (d : leaf)
| LLinear (op : linop) (arg : linexpr)
| LConvert (space output_basis : nat) (arg : linexpr).

Fixpoint to_operand (x : linexpr) : operand :=
  match x with
  | LData d => Data d
  | LLinear op arg => Linear op (to_operand arg)
  | LConvert sp ob arg => Convert sp ob (to_operand arg)
  end.

(** The leaf of such an expression. *)
Fixpoint leaf_of (x : linexpr) : leaf :=
  match x with
  | LData d => d
  | LLinear _ arg => leaf_of arg
  | LConvert _ _ arg => leaf_of arg
  end.

(** The operators whose constant variant returns 0. *)
Definition annihilates_numbers (op : linop) : bool :=
  match op with
  | Differentiate _ | HilbertTransform _ | TimeDerivative => true
  | Interpolate _ _ | Integrate _ _ | Filter _ _ => false
  end.

Fixpoint has_annihilator (x : linexpr) : bool :=
  match x with
  | LData _ => false
  | LLinear op arg => annihilates_numbers op || has_annihilator arg
  | LConvert _ _ arg => has_annihilator arg
  end.

Section SymDiff.

Variable rebuild : linop -> operand -> value.

(** [Data.sym_diff], [LinearOperator.sym_diff] and [Convert.sym_diff]. *)
Fixpoint sym_diff (var : leaf) (x : linexpr) : value :=
  match x with
  | LData d => if leaf_eq d var then Number 1 else Number 0
  | LLinear op arg => new_operand rebuild op (sym_diff var arg)
  | LConvert _ _ arg => sym_diff var arg
  end.

Lemma new_operand_number (op : linop) (z : Z) :
  exists z', new_operand rebuild op (Number z) = Number z'
             /\ (z = 0 \/ annihilates_numbers op = true -> z' = 0).
Proof using Type.
  destruct op as [sp|sp|sp pos|sp len|sp mode|]; simpl.
  - exists 0. split; [reflexivity | auto].
  - exists 0. split; [reflexivity | auto].
  - exists z. split; [reflexivity|]. intros [->|H]; [reflexivity | discriminate].
  - exists (len * z). split; [reflexivity|]. intros [->|H]; [lia | discriminate].
  - destruct (mode =? 0).
    + exists z. split; [reflexivity|]. intros [->|H]; [reflexivity | discriminate].
    + exists 0. split; [reflexivity | auto].
  - exists 0. split; [reflexivity | auto].
Qed.

(** X18. The derivative of a leaf under linear operators and conversions
    is always a plain number, computed without building any node.  It is
    the literal 0 when the leaf is not the variable; and also when one of
    the operators is a differentiation, a Hilbert transform or a time
    derivative, even with respect to the expression's own leaf. *)
Theorem sym_diff_of_linear_expression (var : leaf) (x : linexpr) :
  exists z, sym_diff var x = Number z
            /\ (leaf_eq (leaf_of x) var = false -> z = 0)
            /\ (has_annihilator x = true -> z = 0)
            /\ (has [VData var] (to_operand x) = false -> z = 0).
Proof using Type.
  assert (Hhas : forall y, has [VData var] (to_operand y) = leaf_eq (leaf_of y) var).
  { induction y as [d|op arg IH|sp ob arg IH]; simpl.
    - rewrite orb_false_r. reflexivity.
    - exact IH.
    - exact IH. }
  induction x as [d|op arg IH|sp ob arg IH]; simpl.
  - rewrite orb_false_r.
    destruct (leaf_eq d var) eqn:E; eexists; (split; [reflexivity|]);
      repeat split; try discriminate; try reflexivity.
  - destruct IH as (z & Hz & Hne & Hann & _). rewrite Hz.
    destruct (new_operand_number op z) as (z' & Hz' & Hzero).
    exists z'. split; [exact Hz'|]. split; [|split].
    + intros H. apply Hzero. left. apply Hne. exact H.
    + intros H. apply orb_true_iff in H as [H|H]; apply Hzero; [right; exact H|].
      left. apply Hann. exact H.
    + intros H. apply Hzero. left. apply Hne. rewrite <- Hhas. exact H.
  - destruct IH as (z & Hz & Hne & Hann & _).
    exists z. split; [exact Hz|]. split; [exact Hne|]. split; [exact Hann|].
    intros H. apply Hne. rewrite <- Hhas. exact H.
Qed.

End SymDiff.

Lemma sym_diff_of_linear_expression_witness :
  sym_diff node_rebuild (Field 1)
    (LLinear (Integrate 0 6) (LLinear (Differentiate 0) (LData (Field 1))))
  = Number 0
  /\ sym_diff node_rebuild (Field 1) (LLinear (Integrate 0 6) (LData (Field 1)))
     = Number 6.
Proof.
  split; [|reflexivity].
  destruct (sym_diff_of_linear_expression node_rebuild (Field 1)
              (LLinear (Integrate 0 6) (LLinear (Differentiate 0) (LData (Field 1)))))
    as (z & Hz & _ & Hann & _).
  rewrite Hz. f_equal. apply Hann. reflexivity.
Defined.

End Symbolic.

(* ===================================================================== *)
(** * 6. Layout conditions of [PowerFieldConstant] *)
(* ===================================================================== *)

Module PowerConditions.

Import FieldLayout.

Section Conditions.

Variable grid_space : Z -> list bool.
Variable paths : list path.

(** [PowerFieldConstant.check_conditions], for two argument fields that
    are different objects; two layouts are the same object when they have
    the same index.  [None] where the axis lookup raises. *)
Definition check_conditions (require_grid_axis : option nat) (arg0 arg1 : field)
  : option bool :=
  match require_grid_axis with
  | Some axis =>
      g ← grid_space (layout_index arg0) !! axis;
      Some (g && (layout_index arg0 =? layout_index arg1))
  | None => Some (layout_index arg0 =? layout_index arg1)
  end.

(** [PowerFieldConstant.enforce_conditions] *)
Definition enforce_conditions (fuel : nat) (require_grid_axis : option nat)
    (arg0 arg1 : field) : outcome (field * field) :=
  let moved :=
    match require_grid_axis with
    | Some axis => require_grid_space grid_space paths fuel (Some axis) arg0
    | None => Done arg0
    end in
  match moved with
  | Done arg0' =>
      match require_layout paths fuel (layout_index arg0') arg1 with
      | Done arg1' => Done (arg0', arg1')
      | Raised => Raised
      | OutOfFuel => OutOfFuel
      end
  | Raised => Raised
  | OutOfFuel => OutOfFuel
  end.

End Conditions.

(** X17. [enforce_conditions] establishes [check_conditions]: for two
    fields in registered layouts (and, when a grid axis is required, a
    chain whose last layout has that axis in grid space), it returns, and
    afterwards both fields are in one layout, the base's required axis is
    in grid space there, and [check_conditions] is true. *)
Theorem enforce_then_check
    (grid_space : Z -> list bool) (n fuel : nat) (rga : option nat)
    (arg0 arg1 : field) :
  0 <= layout_index arg0 <= Z.of_nat n ->
  0 <= layout_index arg1 <= Z.of_nat n ->
  (n <= fuel)%nat ->
  (forall axis, rga = Some axis ->
     all_grid grid_space (Some axis) (Z.of_nat n) = Some true
     /\ forall i, layout_index arg0 <= i <= Z.of_nat n ->
          is_Some (all_grid grid_space (Some axis) i)) ->
  exists arg0' arg1',
    enforce_conditions grid_space (chain n) fuel rga arg0 arg1 = Done (arg0', arg1')
    /\ layout_index arg1' = layout_index arg0'
    /\ layout_index arg0 <= layout_index arg0'
    /\ check_conditions grid_space rga arg0' arg1' = Some true.
Proof.
  intros H0 H1 Hfuel Hax. unfold enforce_conditions.
  destruct rga as [axis|].
  - destruct (Hax axis eq_refl) as [Hn Hdef].
    destruct (require_grid_space_ascends grid_space n (Some axis) Hn
                (Z.to_nat (Z.of_nat n - layout_index arg0)) fuel arg0)
      as (k & Hk & Hkt & _ & Hres); [lia | lia | lia | exact Hdef |].
    rewrite Hres. cbn [layout_index].
    rewrite require_layout_walk by (simpl; lia).
    eexists _, _. split; [reflexivity|]. cbn [layout_index].
    split; [reflexivity|]. split; [lia|].
    unfold check_conditions. cbn [layout_index].
    unfold all_grid in Hkt. rewrite Hkt. simpl. rewrite Z.eqb_refl. reflexivity.
  - rewrite require_layout_walk by (simpl; lia).
    eexists _, _. split; [reflexivity|]. cbn [layout_index].
    split; [reflexivity|]. split; [lia|].
    unfold check_conditions. cbn [layout_index]. rewrite Z.eqb_refl. reflexivity.
Qed.

Lemma enforce_then_check_witness :
  let gs := fun i : Z => if i <=? 1 then [false; false]
                         else if i <=? 2 then [false; true] else [true; true] in
  exists arg0' arg1',
    enforce_conditions gs (chain 3) 3 (Some 1%nat)
      {| layout_index := 0; steps := [] |} {| layout_index := 3; steps := [] |}
    = Done (arg0', arg1')
    /\ layout_index arg0' = 2
    /\ check_conditions gs (Some 1%nat) arg0' arg1' = Some true.
Proof.
  intros gs.
  destruct (enforce_then_check gs 3 3 (Some 1%nat)
              {| layout_index := 0; steps := [] |}
              {| layout_index := 3; steps := [] |})
    as (a0 & a1 & He & _ & _ & Hc).
  - simpl. lia.
  - simpl. lia.
  - lia.
  - intros axis [= <-]. split; [reflexivity|].
    intros i Hi. unfold all_grid, gs.
    destruct (i <=? 1); [eexists; reflexivity|].
    destruct (i <=? 2); eexists; reflexivity.
  - exists a0, a1. split; [exact He|]. split; [|exact Hc].
    vm_compute in He. injection He as <- _. reflexivity.
Defined.

End PowerConditions.

(* ===================================================================== *)
(** * 7. Subspace matrices ([LinearSubspaceOperator._subspace_matrix]) *)
(* ===================================================================== *)

Module Subspace.

Import PencilMatrices.

(** The body of the loop over [cls.bands] for row [i]: [j = i + b], and
    the entry is stored when [0 <= j < N] and it is not zero. *)
Definition band_step (N : nat) (subspace_entry : nat -> nat -> Z) (i : nat)
    (Mx : matrix) (b : Z) : matrix :=
  let j := Z.of_nat i + b in
  if (0 <=? j) && (j <? Z.of_nat N) then
    let Mij := subspace_entry i (Z.to_nat j) in
    if Mij =? 0 then Mx else set_entry Mx i (Z.to_nat j) Mij
  else Mx.

(** [LinearSubspaceOperator._subspace_matrix]: the matrix built entry by
    entry over the nonzero bands. *)
Definition subspace_matrix (N : nat) (bands : list Z)
    (subspace_entry : nat -> nat -> Z) : matrix :=
  foldl (fun Mx i => foldl (band_step N subspace_entry i) Mx bands)
        (zeros N N) (seq 0 N).

(** [LinearSubspaceFunctional._subspace_matrix]: the single row built
    entry by entry. *)
Definition functional_matrix (N : nat) (subspace_entry : nat -> Z) : matrix :=
  foldl (fun Mx j => let Mij := subspace_entry j in
                     if Mij =? 0 then Mx else set_entry Mx 0 j Mij)
        {| nrows := 1; ncols := N; entry := fun _ _ => 0 |} (seq 0 N).

(** [Filter._subspace_entry]: 1 at the mode, 0 elsewhere. *)
Definition Filter_subspace_entry (mode : Z) (j : nat) : Z :=
  if Z.of_nat j =? mode then 1 else 0.

Lemma band_loop_entry (N : nat) (e : nat -> nat -> Z) (i : nat) (bands : list Z) :
  forall (Mx : matrix) (r c : nat),
    entry (foldl (band_step N e i) Mx bands) r c
    = if decide (r = i /\ (c < N)%nat /\ (Z.of_nat c - Z.of_nat i) ∈ bands
                 /\ e i c <> 0)
      then e i c else entry Mx r c.
Proof.
  induction bands as [|b bands IH]; intros Mx r c; simpl.
  - rewrite decide_False; [reflexivity|]. intros (_ & _ & H & _).
    apply elem_of_nil in H. exact H.
  - rewrite IH. unfold band_step.
    destruct (decide (r = i /\ (c < N)%nat /\ (Z.of_nat c - Z.of_nat i) ∈ bands
                      /\ e i c <> 0)) as [(Hr & Hc & Hb & He)|Hno].
    + rewrite decide_True; [reflexivity|].
      repeat split; auto. right. exact Hb.
    + destruct (decide (r = i /\ (c < N)%nat /\ (Z.of_nat c - Z.of_nat i) ∈ b :: bands
                        /\ e i c <> 0)) as [(Hr & Hc & Hb & He)|Hno'].
      * apply elem_of_cons in Hb as [Hb|Hb]; [|exfalso; apply Hno; auto].
        subst r. replace (Z.of_nat i + b) with (Z.of_nat c) by lia.
        replace ((0 <=? Z.of_nat c) && (Z.of_nat c <? Z.of_nat N)) with true
          by (symmetry; apply andb_true_iff; split;
              [apply Z.leb_le | apply Z.ltb_lt]; lia).
        rewrite Nat2Z.id. simpl.
        rewrite (proj2 (Z.eqb_neq _ _) He). simpl.
        rewrite decide_True by auto. reflexivity.
      * destruct ((0 <=? Z.of_nat i + b) && (Z.of_nat i + b <? Z.of_nat N)) eqn:Hrange;
          [|reflexivity].
        simpl. destruct (Z.eqb_spec (e i (Z.to_nat (Z.of_nat i + b))) 0) as [|He];
          [reflexivity|].
        simpl. apply andb_true_iff in Hrange as [H1 H2].
        apply Z.leb_le in H1. apply Z.ltb_lt in H2.
        destruct (decide (r = i /\ c = Z.to_nat (Z.of_nat i + b))) as [[-> ->]|];
          [|reflexivity].
        exfalso. apply Hno'. repeat split; [lia | | exact He].
        replace (Z.of_nat (Z.to_nat (Z.of_nat i + b)) - Z.of_nat i) with b by lia.
        left.
Qed.

Lemma row_loop_entry (N : nat) (e : nat -> nat -> Z) (bands : list Z)
    (rows : list nat) :
  forall (Mx : matrix) (r c : nat),
    entry (foldl (fun Mx i => foldl (band_step N e i) Mx bands) Mx rows) r c
    = if decide (r ∈ rows /\ (c < N)%nat /\ (Z.of_nat c - Z.of_nat r) ∈ bands
                 /\ e r c <> 0)
      then e r c else entry Mx r c.
Proof.
  induction rows as [|i rows IH]; intros Mx r c; cbn [foldl].
  - rewrite decide_False; [reflexivity|]. intros (H & _).
    apply elem_of_nil in H. exact H.
  - rewrite IH, band_loop_entry.
    destruct (decide (r ∈ rows /\ (c < N)%nat /\ (Z.of_nat c - Z.of_nat r) ∈ bands
                      /\ e r c <> 0)) as [(Hr & Hc & Hb & He)|Hno].
    + rewrite decide_True; [reflexivity|]. repeat split; auto. right. exact Hr.
    + destruct (decide (r = i /\ (c < N)%nat /\ (Z.of_nat c - Z.of_nat i) ∈ bands
                        /\ e i c <> 0)) as [(-> & Hc & Hb & He)|Hno'].
      * rewrite decide_True; [reflexivity|]. repeat split; auto. left.
      * rewrite decide_False; [reflexivity|]. intros (Hr & Hc & Hb & He).
        apply elem_of_cons in Hr as [->|Hr]; [apply Hno' | apply Hno]; auto.
Qed.

(** X20. The matrix built band by band has the closed form one expects:
    inside the square, on the offsets listed in [bands], the entry is the
    basis's entry formula; everywhere else it is zero, also when a band is
    listed twice or reaches outside the matrix. *)
Theorem subspace_matrix_entries
    (N : nat) (bands : list Z) (e : nat -> nat -> Z) (r c : nat) :
  nrows (subspace_matrix N bands e) = N
  /\ ncols (subspace_matrix N bands e) = N
  /\ entry (subspace_matrix N bands e) r c
     = if decide ((r < N)%nat /\ (c < N)%nat /\ (Z.of_nat c - Z.of_nat r) ∈ bands)
       then e r c else 0.
Proof.
  assert (Hshape : forall rows Mx,
            nrows (foldl (fun Mx i => foldl (band_step N e i) Mx bands) Mx rows)
            = nrows Mx
            /\ ncols (foldl (fun Mx i => foldl (band_step N e i) Mx bands) Mx rows)
               = ncols Mx).
  { assert (Hin : forall i bs Mx, nrows (foldl (band_step N e i) Mx bs) = nrows Mx
                                  /\ ncols (foldl (band_step N e i) Mx bs) = ncols Mx).
    { intros i bs. induction bs as [|b bs IH]; intros Mx; simpl; [auto|].
      destruct (IH (band_step N e i Mx b)) as [H1 H2]. rewrite H1, H2.
      unfold band_step. destruct (_ && _); [|auto]. simpl.
      destruct (_ =? 0); auto. }
    induction rows as [|i rows IH]; intros Mx; simpl; [auto|].
    destruct (IH (foldl (band_step N e i) Mx bands)) as [H1 H2].
    destruct (Hin i bands Mx) as [H3 H4]. split; congruence. }
  unfold subspace_matrix. destruct (Hshape (seq 0 N) (zeros N N)) as [H1 H2].
  split; [exact H1|]. split; [exact H2|].
  rewrite row_loop_entry. simpl.
  destruct (decide ((r < N)%nat /\ (c < N)%nat /\ (Z.of_nat c - Z.of_nat r) ∈ bands))
    as [(Hr & Hc & Hb)|Hno].
  - destruct (decide (e r c = 0)) as [He|He].
    + rewrite decide_False by (intros (_ & _ & _ & H); auto). auto.
    + rewrite decide_True; [reflexivity|]. repeat split; auto.
      apply elem_of_seq. lia.
  - rewrite decide_False; [reflexivity|]. intros (Hr & Hc & Hb & _).
    apply Hno. apply elem_of_seq in Hr. repeat split; auto. lia.
Qed.

Lemma functional_loop_entry (e : nat -> Z) (cols : list nat) :
  forall (Mx : matrix) (r c : nat),
    entry (foldl (fun Mx j => let Mij := e j in
                              if Mij =? 0 then Mx else set_entry Mx 0 j Mij)
                 Mx cols) r c
    = if decide (r = 0%nat /\ c ∈ cols /\ e c <> 0) then e c else entry Mx r c.
Proof.
  induction cols as [|j cols IH]; intros Mx r c; cbn [foldl].
  - rewrite decide_False; [reflexivity|]. intros (_ & H & _).
    apply elem_of_nil in H. exact H.
  - rewrite IH.
    destruct (decide (r = 0%nat /\ c ∈ cols /\ e c <> 0)) as [(Hr & Hc & He)|Hno].
    + rewrite decide_True; [reflexivity|]. repeat split; auto. right. exact Hc.
    + destruct (Z.eqb_spec (e j) 0) as [Hz|Hnz].
      * rewrite decide_False; [reflexivity|]. intros (Hr & Hc & He).
        apply elem_of_cons in Hc as [->|Hc]; [auto | apply Hno; auto].
      * simpl. destruct (decide (r = 0%nat /\ c = j)) as [[-> ->]|Hne].
        -- rewrite decide_True; [reflexivity|]. repeat split; auto. left.
        -- rewrite decide_False; [reflexivity|]. intros (Hr & Hc & He).
           apply elem_of_cons in Hc as [->|Hc]; [apply Hne | apply Hno]; auto.
Qed.

Lemma sum_upto_single (n m : nat) (f : nat -> Z) :
  (m < n)%nat -> (forall k, k <> m -> f k = 0) -> sum_upto n f = f m.
Proof.
  induction n as [|n IH]; intros Hm Hz; [lia|]. simpl.
  destruct (decide (m = n)) as [->|Hne].
  - rewrite sum_upto_zero_below; [lia|]. intros k Hk. apply Hz. lia.
  - rewrite IH by (auto; lia). rewrite (Hz n) by lia. lia.
Qed.

(** X21. The matrix of [Filter] is the row that picks one coefficient:
    applied to a coefficient vector of the right length it returns the
    coefficient of index [mode], and 0 when [mode] is not an index of the
    vector. *)
Theorem Filter_matrix_selects_mode (N : nat) (mode : Z) (v : list Z) :
  length v = N ->
  matvec (functional_matrix N (Filter_subspace_entry mode)) v
  = Some [if (0 <=? mode) && (mode <? Z.of_nat N)
          then default 0 (v !! Z.to_nat mode) else 0].
Proof.
  intros Hlen.
  assert (Hshape : forall cols Mx,
            nrows (foldl (fun Mx j => let Mij := Filter_subspace_entry mode j in
                                      if Mij =? 0 then Mx else set_entry Mx 0 j Mij)
                         Mx cols) = nrows Mx
            /\ ncols (foldl (fun Mx j => let Mij := Filter_subspace_entry mode j in
                                         if Mij =? 0 then Mx else set_entry Mx 0 j Mij)
                            Mx cols) = ncols Mx).
  { induction cols as [|j cols IH]; intros Mx; simpl; [auto|].
    destruct (Filter_subspace_entry mode j =? 0); [apply IH|].
    destruct (IH (set_entry Mx 0 j (Filter_subspace_entry mode j))) as [H1 H2].
    simpl in H1, H2. auto. }
  unfold matvec, functional_matrix.
  destruct (Hshape (seq 0 N) {| nrows := 1; ncols := N; entry := fun _ _ => 0 |})
    as [H1 H2]. simpl in H1, H2. rewrite H1, H2.
  rewrite decide_True by exact Hlen. simpl. f_equal. f_equal.
  set (F := fun k => entry _ 0%nat k * default 0 (v !! k)).
  assert (HF : forall k, F k = if decide ((k < N)%nat /\ Z.of_nat k = mode)
                               then default 0 (v !! k) else 0).
  { intros k. unfold F. rewrite functional_loop_entry. simpl.
    unfold Filter_subspace_entry.
    destruct (Z.eqb_spec (Z.of_nat k) mode) as [Hk|Hk].
    - destruct (decide (k < N)%nat) as [HkN|HkN].
      + rewrite decide_True by (repeat split; [apply elem_of_seq; lia | discriminate]).
        rewrite decide_True by auto. lia.
      + rewrite decide_False by (intros (_ & H & _); apply elem_of_seq in H; lia).
        rewrite decide_False by (intros [? _]; lia). reflexivity.
    - rewrite decide_False by (intros (_ & _ & H); apply H; reflexivity).
      rewrite decide_False by (intros [_ ?]; lia). reflexivity. }
  destruct ((0 <=? mode) && (mode <? Z.of_nat N)) eqn:Hrange.
  - apply andb_true_iff in Hrange as [Ha Hb].
    apply Z.leb_le in Ha. apply Z.ltb_lt in Hb.
    rewrite (sum_upto_single N (Z.to_nat mode)); [| lia |].
    + rewrite HF. rewrite decide_True by (split; lia). reflexivity.
    + intros k Hk. rewrite HF. rewrite decide_False by (intros [_ ?]; lia).
      reflexivity.
  - rewrite sum_upto_zero_below; [reflexivity|]. intros k Hk. rewrite HF.
    rewrite decide_False; [reflexivity|]. intros [_ Hm]. subst mode.
    assert (Hr : (0 <=? Z.of_nat k) && (Z.of_nat k <? Z.of_nat N) = true)
      by (apply andb_true_iff; split; [apply Z.leb_le | apply Z.ltb_lt]; lia).
    congruence.
Qed.

Lemma Filter_matrix_selects_mode_witness :
  matvec (functional_matrix 3 (Filter_subspace_entry 1)) [4; 5; 6] = Some [5].
Proof.
  apply (Filter_matrix_selects_mode 3 1 [4; 5; 6]). reflexivity.
Defined.

End Subspace.
